(** * Width-aware text layout: a shallow embedding of [toot/wcstring.py]

    The module wraps, truncates, pads and fits text while measuring it in
    terminal columns.  Python strings are sequences of Unicode code points;
    a character is modelled by its code point ([ord]) and a string by the
    list of its characters.  Generators are modelled by the list of the
    values they yield, together with the exception that ended them, if any. *)

From Stdlib Require Import ZArith List Bool Lia Ascii.
From Stdlib Require String.
Import String.StringSyntax.
Import ListNotations.
Open Scope Z_scope.

(** ** Strings *)

Definition char := Z.
Definition str := list char.

Definition str_of (s : String.string) : str :=
  map (fun a => Z.of_N (N_of_ascii a)) (String.list_ascii_of_string s).
Arguments str_of s%_string_scope.

Definition SPACE : char := 32.
Definition TAB : char := 9.
Definition NEWLINE : char := 10.
(** U+2026 HORIZONTAL ELLIPSIS, the literal appended by [trunc]. *)
Definition ELLIPSIS : char := 8230.

(** [str.isspace] for one character: the code points Python treats as
    whitespace, which are the ones [strip] and [rstrip] remove. *)
Definition isspace (c : char) : bool :=
  ((9 <=? c) && (c <=? 13)) || ((28 <=? c) && (c <=? 32))
  || (c =? 133) || (c =? 160) || (c =? 5760)
  || ((8192 <=? c) && (c <=? 8202))
  || (c =? 8232) || (c =? 8233) || (c =? 8239) || (c =? 8287)
  || (c =? 12288).

Fixpoint lstrip (s : str) : str :=
  match s with
  | [] => []
  | c :: s' => if isspace c then lstrip s' else s
  end.

Definition rstrip (s : str) : str := rev (lstrip (rev s)).

Definition strip (s : str) : str := rstrip (lstrip s).

(** Emptiness of a string or a list: [word == ''], [not line_words]. *)
Definition is_empty {A : Type} (l : list A) : bool :=
  match l with [] => true | _ :: _ => false end.

(** [text[:-n]] for [n >= 1]: all but the last [n] characters, the empty
    string when [n] exceeds the length. *)
Definition drop_last (n : nat) (text : str) : str :=
  firstn (length text - n) text.

(** ** Exceptions and generators *)

Inductive exn : Type :=
| ValueError
| ZeroDivisionError.

Inductive result (A : Type) : Type :=
| Ok (a : A)
| Raise (e : exn).
Arguments Ok {A} a.
Arguments Raise {A} e.

(** What a generator produced: the values yielded, in order, and the
    exception that stopped it ([None] when it ran to completion). *)
Definition gen (A : Type) : Type := (list A * option exn)%type.

Definition yielded {A} (g : gen A) : list A := fst g.
Definition raised {A} (g : gen A) : option exn := snd g.

(** Python's [a % b] on integers. *)
Definition py_mod (a b : Z) : result Z :=
  if b =? 0 then Raise ZeroDivisionError else Ok (a mod b).

(** ** Tokenisation: [re.split(r"(.+?(?:[ \t]+|$))", text)]

    The pattern is one capturing group: a lazy, non-empty run of [.]
    (any character but a newline) followed either by a greedy run of
    spaces and tabs or by [$], which without MULTILINE holds at the end of
    the string and just before a newline that ends it. *)

(** The class [[ \t]]. *)
Definition is_blank (c : char) : bool := (c =? SPACE) || (c =? TAB).

(** [[ \t]*], greedy: the blanks at the head of [s] and what follows. *)
Fixpoint span_blank (s : str) : str * str :=
  match s with
  | [] => ([], [])
  | c :: s' =>
      if is_blank c
      then let (b, r) := span_blank s' in (c :: b, r)
      else ([], s)
  end.

(** [$] at the position in front of [s]. *)
Definition at_end (s : str) : bool :=
  match s with
  | [] => true
  | [c] => c =? NEWLINE
  | _ => false
  end.

(** The backtracking of [.+?] once it holds [acc]: try the alternation
    in front of [s], first [[ \t]+] and then [$]; when both fail let [.]
    take one more character, which it refuses when that is a newline.
    The answer is the text matched and the text left. *)
Fixpoint word_tail (acc : str) (s : str) : option (str * str) :=
  match s with
  | [] => Some (acc, [])
  | c :: s' =>
      if is_blank c then let (b, r) := span_blank s in Some (acc ++ b, r)
      else if at_end s then Some (acc, s)
      else if c =? NEWLINE then None
      else word_tail (acc ++ [c]) s'
  end.

(** The pattern tried at the position in front of [s]. *)
Definition match_at (s : str) : option (str * str) :=
  match s with
  | [] => None
  | c :: s' => if c =? NEWLINE then None else word_tail [c] s'
  end.

(** [re.split]'s scan: [pending] is the text passed over since the last
    match.  A match yields [pending] and the group; a failure moves the
    start one character to the right.  Every round consumes a character,
    so [fuel] above the length of [s] is never used up. *)
Fixpoint split_loop (fuel : nat) (pending : str) (s : str) : list str :=
  match fuel with
  | O => []
  | S fuel' =>
      match match_at s with
      | Some (m, rest) => pending :: m :: split_loop fuel' [] rest
      | None =>
          match s with
          | [] => [pending]
          | c :: s' => split_loop fuel' (pending ++ [c]) s'
          end
      end
  end.

Definition re_split (text : str) : list str :=
  split_loop (S (length text)) [] text.

(** The words the loop of [wc_wrap] works on: those it does not skip. *)
Definition tokens (text : str) : list str :=
  filter (fun word => negb (is_empty word)) (re_split text).

(** Two oracles agree on a string when they give every character of it
    the same width. *)
Definition agree_on (wcwidth1 wcwidth2 : char -> Z) (s : str) : Prop :=
  Forall (fun c => wcwidth1 c = wcwidth2 c) s.

(** The shape of a word of the split: one character, then characters
    that are neither spaces nor tabs, then spaces and tabs. *)
Definition word_shape (word : str) : Prop :=
  exists c w b,
    word = c :: w ++ b
    /\ Forall (fun d => is_blank d = false) w
    /\ Forall (fun d => is_blank d = true) b.

(** Words are separated when each one that is followed by another ends
    with a space or a tab and the next one starts with neither. *)
Fixpoint separated (words : list str) : Prop :=
  match words with
  | a :: (b :: _) as rest =>
      (exists a' d, a = a' ++ [d] /\ is_blank d = true)
      /\ (exists c b', b = c :: b' /\ is_blank c = false)
      /\ separated rest
  | _ => True
  end.

(** The characters of a string that are not whitespace, in order. *)
Definition visible (s : str) : str := filter (fun c => negb (isspace c)) s.

(** Lines put back in order, each one followed by the gap of the same
    rank. *)
Fixpoint interleave (lines gaps : list str) : str :=
  match lines, gaps with
  | line :: lines', gap :: gaps' => line ++ gap ++ interleave lines' gaps'
  | _, _ => []
  end.

(** ** A width table to run the code on *)

(** Modelled from the spec: the width oracle, which is the [wcwidth]
    package and not part of the sources.  The table follows the contract
    of the oracle on the ranges the examples use: 0 for NUL, negative for
    the other C0 and C1 control characters, 0 for the combining
    diacritical marks and the zero-width space and joiners, 2 for the
    East Asian wide and fullwidth blocks, 1 for everything else. *)
Definition wcwidth_table (c : char) : Z :=
  if c =? 0 then 0
  else if (c <? 32) || ((127 <=? c) && (c <? 160)) then -1
  else if ((768 <=? c) && (c <=? 879)) || ((8203 <=? c) && (c <=? 8207)) then 0
  else if ((4352 <=? c) && (c <=? 4447))
          || ((11904 <=? c) && (c <=? 42191))
          || ((44032 <=? c) && (c <=? 55203))
          || ((63744 <=? c) && (c <=? 64255))
          || ((65072 <=? c) && (c <=? 65135))
          || ((65280 <=? c) && (c <=? 65376))
          || ((65504 <=? c) && (c <=? 65510))
       then 2
  else 1.

Section WcString.

(** The per-character width oracle of the [wcwidth] package: 2 for wide
    characters, 1 for ordinary ones, 0 for zero-width ones, negative for
    control characters. *)
Variable wcwidth : char -> Z.

(** Modelled from the spec: [wcswidth] of the [wcwidth] package, which is
    imported and not part of the sources: the sum of the widths of the
    characters, or -1 as soon as one character has a negative width. *)
Fixpoint wcswidth_from (width : Z) (s : str) : Z :=
  match s with
  | [] => width
  | c :: s' =>
      let wcw := wcwidth c in
      if wcw <? 0 then -1 else wcswidth_from (width + wcw) s'
  end.

Definition wcswidth (s : str) : Z := wcswidth_from 0 s.

(** *** [_wc_hard_wrap] *)

(** The [for char in line] loop, with the buffer [chars] and its running
    width [chars_len]; the list holds the chunks yielded from here on. *)
Fixpoint hard_wrap_loop (length : Z) (line : str) (chars : str) (chars_len : Z)
  : list str :=
  match line with
  | [] => if is_empty chars then [] else [chars]
  | char :: line' =>
      let char_len := wcwidth char in
      if chars_len + char_len >? length
      then chars :: hard_wrap_loop length line' ([] ++ [char]) (0 + char_len)
      else hard_wrap_loop length line' (chars ++ [char]) (chars_len + char_len)
  end.

Definition _wc_hard_wrap (line : str) (length : Z) : list str :=
  hard_wrap_loop length line [] 0.

(** *** [wc_wrap] *)

(** What the generator yields when it gives up the line [line]. *)
Definition flush (line : str) (fits : bool) (length : Z) : list str :=
  if fits then [line] else _wc_hard_wrap line length.

(** The [for word in words] loop and the code after it, with the state
    [line_words], [line_len]. *)
Fixpoint wrap_loop (length : Z) (words : list str)
    (line_words : list str) (line_len : Z) : gen str :=
  match words with
  | [] =>
      if is_empty line_words then ([], None)
      else
        let line := rstrip (concat line_words) in
        (flush line (line_len <=? length) length, None)
  | word :: words' =>
      if is_empty word then wrap_loop length words' line_words line_len
      else
        let word_len := wcswidth word in
        let striped_line := rstrip (concat line_words) in
        match (if wcswidth striped_line >? length
               then py_mod line_len length else Ok line_len) with
        | Raise e => ([], Some e)
        | Ok line_len =>
            let break :=
              negb (is_empty line_words)
              && (line_len + word_len >? length)
              && (line_len + wcswidth (rstrip word) >? length) in
            let out :=
              if break
              then flush striped_line (wcswidth striped_line <=? length) length
              else [] in
            let line_words := if break then [] else line_words in
            let line_len := wcswidth (concat line_words) + word_len in
            let (rest, e) :=
              wrap_loop length words' (line_words ++ [word]) line_len in
            (out ++ rest, e)
        end
  end.

Definition wc_wrap (text : str) (length : Z) : gen str :=
  wrap_loop length (re_split text) [] 0.

(** *** [trunc] *)

(** The [for char in reversed(text)] loop; it returns
    [chars_to_truncate]. *)
Fixpoint trunc_scan (rtext : str) (text_length length : Z)
    (chars_to_truncate : nat) (trunc_length : Z) : nat :=
  match rtext with
  | [] => chars_to_truncate
  | char :: rtext' =>
      let chars_to_truncate := S chars_to_truncate in
      let trunc_length := trunc_length + wcwidth char in
      if text_length - trunc_length <=? length then chars_to_truncate
      else trunc_scan rtext' text_length length chars_to_truncate trunc_length
  end.

Definition trunc (text : str) (length : Z) : result str :=
  if length <? 1 then Raise ValueError
  else
    let text := strip text in
    let text_length := wcswidth text in
    if text_length <=? length then Ok text
    else
      let chars_to_truncate := trunc_scan (rev text) text_length length 0 0 in
      let n := S chars_to_truncate in
      Ok (strip (drop_last n text) ++ [ELLIPSIS]).

(** *** [pad] *)

Definition pad (text : str) (length : Z) : str :=
  let text_length := wcswidth text in
  if text_length <? length
  then text ++ repeat SPACE (Z.to_nat (length - text_length))
  else text.

(** *** [fit_text] *)

Definition fit_text (text : str) (length : Z) : result str :=
  let text_length := wcswidth text in
  if text_length >? length then trunc text length
  else if text_length <? length then Ok (pad text length)
  else Ok text.

(** *** Predicates the statements use *)

(** A string has a defined width when no character of it has a negative
    one. *)
Definition measurable (s : str) : Prop := Forall (fun c => 0 <= wcwidth c) s.

(** A line is within the budget when its width is at most [length], or
    when it is one character that alone is wider than [length]. *)
Definition within (length : Z) (line : str) : Prop :=
  wcswidth line <= length \/ exists c, line = [c] /\ length < wcwidth c.

(** Chunks are greedy when none could have taken the first character of
    the chunk after it: with that character it would be wider than
    [length]. *)
Fixpoint greedy_chunks (length : Z) (chunks : list str) : Prop :=
  match chunks with
  | a :: (b :: _) as rest =>
      match b with
      | [] => False
      | c :: _ => length < wcswidth a + wcwidth c
      end
      /\ greedy_chunks length rest
  | _ => True
  end.

(** ** Facts about stripping *)

Lemma lstrip_suffix (s : str) : exists p, s = p ++ lstrip s.
Proof.
  induction s as [|c s IH]; simpl.
  - exists []. reflexivity.
  - destruct (isspace c).
    + destruct IH as [p Hp]. exists (c :: p). simpl. now rewrite <- Hp.
    + exists []. reflexivity.
Qed.

Lemma rstrip_prefix (s : str) : exists t, s = rstrip s ++ t.
Proof.
  unfold rstrip. destruct (lstrip_suffix (rev s)) as [p Hp].
  exists (rev p). rewrite <- rev_app_distr, <- Hp. now rewrite rev_involutive.
Qed.

Lemma strip_middle (s : str) : exists p t, s = p ++ strip s ++ t.
Proof.
  unfold strip. destruct (lstrip_suffix s) as [p Hp].
  destruct (rstrip_prefix (lstrip s)) as [t Ht].
  exists p, t. now rewrite <- Ht.
Qed.

Lemma lstrip_head (c : char) (s : str) :
  isspace c = false -> lstrip (c :: s) = c :: s.
Proof. intros H. simpl. now rewrite H. Qed.

Lemma lstrip_nil_or_head (s : str) :
  lstrip s = [] \/ exists c s', lstrip s = c :: s' /\ isspace c = false.
Proof.
  induction s as [|c s IH]; simpl; [now left|].
  destruct (isspace c) eqn:E; [exact IH|].
  right. now exists c, s.
Qed.

Lemma Forall_rstrip (P : char -> Prop) (s : str) :
  Forall P s -> Forall P (rstrip s).
Proof.
  intros H. destruct (rstrip_prefix s) as [t Ht]. rewrite Ht in H.
  now apply Forall_app in H.
Qed.

Lemma Forall_strip (P : char -> Prop) (s : str) :
  Forall P s -> Forall P (strip s).
Proof.
  intros H. destruct (strip_middle s) as [p [t Ht]]. rewrite Ht in H.
  apply Forall_app in H. destruct H as [_ H]. now apply Forall_app in H.
Qed.

(** ** Facts about widths *)

Lemma wcswidth_from_measurable (s : str) :
  measurable s ->
  forall width, wcswidth_from width s = width + wcswidth s /\ 0 <= wcswidth s.
Proof.
  unfold wcswidth. induction 1 as [|c s Hc Hs IH]; intros width; simpl.
  - lia.
  - destruct (Z.ltb_spec (wcwidth c) 0) as [Hlt|_]; [lia|].
    destruct (IH (width + wcwidth c)) as [E1 _].
    destruct (IH (wcwidth c)) as [E2 Hpos].
    rewrite E1, E2. lia.
Qed.

Lemma wcswidth_from_undefined (s : str) :
  ~ measurable s -> forall width, wcswidth_from width s = -1.
Proof.
  induction s as [|c s IH]; intros Hn width; simpl.
  - exfalso. apply Hn. constructor.
  - destruct (Z.ltb_spec (wcwidth c) 0) as [Hlt|Hge]; [reflexivity|].
    apply IH. intros Hs. apply Hn. now constructor.
Qed.

Lemma measurable_dec (s : str) : measurable s \/ ~ measurable s.
Proof.
  induction s as [|c s [IH|IH]].
  - left. constructor.
  - destruct (Z.le_gt_cases 0 (wcwidth c)) as [H|H].
    + left. now constructor.
    + right. intros Hm. inversion Hm; subst. lia.
  - right. intros Hm. inversion Hm; subst. now apply IH.
Qed.

Lemma wcswidth_nonneg_measurable (s : str) : 0 <= wcswidth s -> measurable s.
Proof.
  intros H. destruct (measurable_dec s) as [Hm|Hn]; [exact Hm|].
  unfold wcswidth in H. rewrite (wcswidth_from_undefined s Hn) in H. lia.
Qed.

Lemma wcswidth_measurable_nonneg (s : str) : measurable s -> 0 <= wcswidth s.
Proof. intros H. now destruct (wcswidth_from_measurable s H 0). Qed.

Lemma wcswidth_lower (s : str) : -1 <= wcswidth s.
Proof.
  destruct (measurable_dec s) as [Hm|Hn].
  - pose proof (wcswidth_measurable_nonneg s Hm). lia.
  - unfold wcswidth. rewrite (wcswidth_from_undefined s Hn). lia.
Qed.

Lemma wcswidth_nil : wcswidth [] = 0.
Proof. reflexivity. Qed.

Lemma wcswidth_cons (c : char) (s : str) :
  measurable (c :: s) -> wcswidth (c :: s) = wcwidth c + wcswidth s.
Proof.
  intros H. inversion H as [|c' s' Hc Hs]; subst.
  unfold wcswidth at 1. simpl.
  destruct (Z.ltb_spec (wcwidth c) 0) as [Hlt|_]; [lia|].
  now destruct (wcswidth_from_measurable s Hs (wcwidth c)) as [-> _].
Qed.

Lemma wcswidth_app (a b : str) :
  measurable (a ++ b) -> wcswidth (a ++ b) = wcswidth a + wcswidth b.
Proof.
  induction a as [|c a IH]; intros H; simpl in *.
  - reflexivity.
  - pose proof H as H'. inversion H' as [|c' s' Hc Hs]; subst.
    rewrite (wcswidth_cons c (a ++ b) H), (IH Hs).
    assert (Ha : measurable (c :: a)).
    { constructor; [exact Hc|]. now apply Forall_app in Hs. }
    rewrite (wcswidth_cons c a Ha). lia.
Qed.

Lemma wcswidth_singleton (c : char) : 0 <= wcwidth c -> wcswidth [c] = wcwidth c.
Proof.
  intros H. rewrite wcswidth_cons by (repeat constructor; exact H).
  rewrite wcswidth_nil. lia.
Qed.

Lemma wcswidth_repeat (c : char) (n : nat) :
  wcwidth c = 1 -> wcswidth (repeat c n) = Z.of_nat n /\ measurable (repeat c n).
Proof.
  intros Hc. induction n as [|n [IH Hm]].
  - split; [reflexivity|constructor].
  - assert (Hm' : measurable (c :: repeat c n)) by (constructor; [lia|exact Hm]).
    split; [|exact Hm']. cbn [repeat]. rewrite wcswidth_cons by exact Hm'. lia.
Qed.

Lemma wcswidth_prefix_le (a b : str) :
  measurable (a ++ b) -> wcswidth a <= wcswidth (a ++ b).
Proof.
  intros H. rewrite (wcswidth_app a b H).
  apply Forall_app in H. destruct H as [_ Hb].
  pose proof (wcswidth_measurable_nonneg b Hb). lia.
Qed.

Lemma wcswidth_rstrip_le (s : str) :
  measurable s -> wcswidth (rstrip s) <= wcswidth s.
Proof.
  intros H. destruct (rstrip_prefix s) as [t Ht].
  rewrite Ht at 2. apply wcswidth_prefix_le. now rewrite <- Ht.
Qed.

Lemma wcswidth_strip_le (s : str) :
  measurable s -> wcswidth (strip s) <= wcswidth s.
Proof.
  intros H. destruct (strip_middle s) as [p [t Ht]].
  rewrite Ht in H. rewrite Ht at 2.
  rewrite (wcswidth_app _ _ H).
  pose proof H as H'. apply Forall_app in H'. destruct H' as [Hp Hst].
  pose proof (wcswidth_prefix_le _ _ Hst).
  pose proof (wcswidth_measurable_nonneg p Hp). lia.
Qed.

(** ** The hard wrap *)

Lemma hard_wrap_loop_concat (length : Z) (line chars : str) (chars_len : Z) :
  concat (hard_wrap_loop length line chars chars_len) = chars ++ line.
Proof.
  revert chars chars_len.
  induction line as [|char line IH]; intros chars chars_len; simpl.
  - destruct chars; simpl; [reflexivity|]. now rewrite !app_nil_r.
  - destruct (chars_len + wcwidth char >? length); simpl.
    + now rewrite IH.
    + rewrite IH, <- app_assoc. reflexivity.
Qed.

(** C2: the chunks of the hard wrap, joined in order, are the line: the
    wrap neither drops, adds nor reorders a character, and a chunk is a
    list of whole characters.  It holds for every [length]. *)
Theorem hard_wrap_concat (line : str) (length : Z) :
  concat (_wc_hard_wrap line length) = line.
Proof. unfold _wc_hard_wrap. now rewrite hard_wrap_loop_concat. Qed.

Lemma hard_wrap_loop_within (length : Z) (line : str) :
  measurable line ->
  forall (chars : str) (chars_len : Z),
    measurable chars -> chars_len = wcswidth chars -> within length chars ->
    Forall (within length) (hard_wrap_loop length line chars chars_len).
Proof.
  induction 1 as [|char line Hc Hline IH]; intros chars chars_len Hm Hlen Hw.
  - simpl. destruct chars; simpl; constructor; [exact Hw|constructor].
  - simpl. destruct (Z.gtb_spec (chars_len + wcwidth char) length) as [Hgt|Hle].
    + constructor; [exact Hw|]. apply IH.
      * repeat constructor. exact Hc.
      * now rewrite wcswidth_singleton.
      * destruct (Z.le_gt_cases (wcwidth char) length) as [Hfit|Hwide].
        -- left. now rewrite wcswidth_singleton.
        -- right. exists char. split; [reflexivity|lia].
    + assert (Hm' : measurable (chars ++ [char])).
      { apply Forall_app. split; [exact Hm|]. repeat constructor. exact Hc. }
      apply IH; [exact Hm'| |].
      * rewrite (wcswidth_app _ _ Hm'), wcswidth_singleton by exact Hc. lia.
      * left. rewrite (wcswidth_app _ _ Hm'), wcswidth_singleton by exact Hc. lia.
Qed.

Lemma hard_wrap_within (length : Z) (line : str) :
  0 <= length -> measurable line ->
  Forall (within length) (_wc_hard_wrap line length).
Proof.
  intros Hl Hm. unfold _wc_hard_wrap.
  apply hard_wrap_loop_within; [exact Hm|constructor|reflexivity|].
  left. rewrite wcswidth_nil. exact Hl.
Qed.

(** A loop entered with a non-empty buffer ends with a non-empty chunk
    that starts with the buffer. *)
Lemma hard_wrap_loop_head (length : Z) (line : str) :
  forall (c : char) (chars : str) (chars_len : Z),
  exists chunk rest,
    hard_wrap_loop length line (c :: chars) chars_len = (c :: chunk) :: rest.
Proof.
  induction line as [|char line IH]; intros c chars chars_len; simpl.
  - now exists chars, [].
  - destruct (chars_len + wcwidth char >? length).
    + now exists chars, (hard_wrap_loop length line [char] (wcwidth char)).
    + apply IH.
Qed.

(** ** [pad] *)

Lemma pad_wcswidth (text : str) (length : Z) :
  wcwidth SPACE = 1 -> 0 <= wcswidth text ->
  wcswidth (pad text length) = Z.max (wcswidth text) length.
Proof.
  intros Hsp Hw. pose proof (wcswidth_nonneg_measurable text Hw) as Hm.
  unfold pad. destruct (Z.ltb_spec (wcswidth text) length) as [Hlt|Hge]; [|lia].
  destruct (wcswidth_repeat SPACE (Z.to_nat (length - wcswidth text)) Hsp)
    as [Hr Hmr].
  rewrite wcswidth_app by (apply Forall_app; split; assumption).
  rewrite Hr. lia.
Qed.

(** C7: on a text of defined width, [pad] gives a text of width
    [max (wcswidth text) length]; the result is [text] followed by exactly
    [length - wcswidth text] spaces when the width is below [length], and
    [text] itself otherwise, so [text] is always a prefix of it. *)
Theorem pad_width (text : str) (length : Z) :
  wcwidth SPACE = 1 ->
  0 <= wcswidth text ->
  wcswidth (pad text length) = Z.max (wcswidth text) length
  /\ (wcswidth text < length ->
      exists n, Z.of_nat n = length - wcswidth text
                /\ pad text length = text ++ repeat SPACE n)
  /\ (length <= wcswidth text -> pad text length = text)
  /\ exists spaces, pad text length = text ++ spaces.
Proof.
  intros Hsp Hw. split; [now apply pad_wcswidth|].
  unfold pad. destruct (Z.ltb_spec (wcswidth text) length) as [Hlt|Hge].
  - split; [|split].
    + intros _. exists (Z.to_nat (length - wcswidth text)). split; [lia|reflexivity].
    + intros Hle. lia.
    + eexists. reflexivity.
  - split; [|split].
    + intros Hlt. lia.
    + reflexivity.
    + exists []. now rewrite app_nil_r.
Qed.

(** ** Tokenisation *)

Lemma span_blank_app (s : str) : fst (span_blank s) ++ snd (span_blank s) = s.
Proof.
  induction s as [|c s IH]; simpl; [reflexivity|].
  destruct (is_blank c); [|reflexivity].
  destruct (span_blank s) as [b r]. simpl in *. now rewrite IH.
Qed.

Lemma span_blank_length (s : str) :
  (List.length (snd (span_blank s)) <= List.length s)%nat.
Proof.
  induction s as [|c s IH]; simpl; [lia|].
  destruct (is_blank c); [|simpl; lia].
  destruct (span_blank s) as [b r]. simpl in *. lia.
Qed.

Lemma word_tail_some (s : str) :
  forall (acc m rest : str),
    word_tail acc s = Some (m, rest) ->
    m ++ rest = acc ++ s
    /\ (exists more, m = acc ++ more)
    /\ (List.length rest <= List.length s)%nat.
Proof.
  induction s as [|c s IH]; intros acc m rest H.
  - simpl in H. injection H as <- <-.
    split; [reflexivity|]. split; [|simpl; lia].
    exists []. now rewrite app_nil_r.
  - cbn [word_tail] in H. destruct (is_blank c) eqn:Eb.
    + pose proof (span_blank_app (c :: s)) as Happ.
      pose proof (span_blank_length (c :: s)) as Hlen.
      destruct (span_blank (c :: s)) as [b r]. simpl in Happ, Hlen.
      injection H as <- <-. split; [|split].
      * now rewrite <- app_assoc, Happ.
      * now exists b.
      * exact Hlen.
    + destruct (at_end (c :: s)).
      * injection H as <- <-.
        split; [reflexivity|]. split; [|simpl; lia].
        exists []. now rewrite app_nil_r.
      * destruct (c =? NEWLINE); [discriminate|].
        destruct (IH _ _ _ H) as (Happ & [more Hmore] & Hlen).
        split; [|split].
        -- rewrite Happ, <- app_assoc. reflexivity.
        -- exists (c :: more). rewrite Hmore, <- app_assoc. reflexivity.
        -- simpl. lia.
Qed.

Lemma match_at_some (s m rest : str) :
  match_at s = Some (m, rest) ->
  m ++ rest = s /\ m <> [] /\ (List.length rest < List.length s)%nat.
Proof.
  destruct s as [|c s]; simpl; [discriminate|].
  destruct (c =? NEWLINE); [discriminate|]. intros H.
  destruct (word_tail_some _ _ _ _ H) as (Happ & [more Hmore] & Hlen).
  split; [|split].
  - exact Happ.
  - now rewrite Hmore.
  - simpl. lia.
Qed.

Lemma split_loop_concat (fuel : nat) :
  forall (pending s : str),
    (List.length s < fuel)%nat ->
    concat (split_loop fuel pending s) = pending ++ s.
Proof.
  induction fuel as [|fuel IH]; intros pending s Hlen; [lia|].
  cbn [split_loop]. destruct (match_at s) as [[m rest]|] eqn:E.
  - destruct (match_at_some _ _ _ E) as (Happ & _ & Hlt).
    cbn [concat]. rewrite IH by lia. now rewrite <- Happ.
  - destruct s as [|c s]; simpl.
    + reflexivity.
    + rewrite IH by (simpl in Hlen; lia). now rewrite <- app_assoc.
Qed.

(** The scan does not depend on the fuel once there is enough of it: on
    every text [re_split] is the result of the scan run to its end. *)
Lemma split_loop_fuel (fuel1 : nat) :
  forall (fuel2 : nat) (pending s : str),
    (List.length s < fuel1)%nat -> (List.length s < fuel2)%nat ->
    split_loop fuel1 pending s = split_loop fuel2 pending s.
Proof.
  induction fuel1 as [|fuel1 IH]; intros fuel2 pending s H1 H2; [lia|].
  destruct fuel2 as [|fuel2]; [lia|].
  cbn [split_loop]. destruct (match_at s) as [[m rest]|] eqn:E.
  - destruct (match_at_some _ _ _ E) as (_ & _ & Hlt).
    f_equal. f_equal. apply IH; lia.
  - destruct s as [|c s]; [reflexivity|]. simpl in H1, H2. apply IH; lia.
Qed.

Lemma concat_filter_nonempty (l : list str) :
  concat (filter (fun word => negb (is_empty word)) l) = concat l.
Proof.
  induction l as [|w l IH]; simpl; [reflexivity|].
  destruct w; simpl; [exact IH|]. now rewrite IH.
Qed.

Lemma wrap_loop_filter (length : Z) (words : list str) :
  forall (line_words : list str) (line_len : Z),
    wrap_loop length words line_words line_len
    = wrap_loop length (filter (fun word => negb (is_empty word)) words)
        line_words line_len.
Proof.
  induction words as [|word words IH]; intros line_words line_len.
  - reflexivity.
  - destruct word as [|c word].
    + cbn [filter is_empty negb wrap_loop]. apply IH.
    + cbn [filter is_empty negb wrap_loop].
      destruct (if wcswidth (rstrip (concat line_words)) >? length
                then py_mod line_len length else Ok line_len); [|reflexivity].
      now rewrite IH.
Qed.

Lemma re_split_concat (text : str) : concat (re_split text) = text.
Proof. unfold re_split. now rewrite split_loop_concat by lia. Qed.

(** C9: the split is a round trip, the words joined in order are the text,
    also once the empty ones are left out; the loop of [wc_wrap] runs on the
    words that are not empty, and none of those is empty. *)
Theorem tokens_roundtrip (text : str) :
  concat (re_split text) = text
  /\ concat (tokens text) = text
  /\ Forall (fun word => word <> []) (tokens text)
  /\ forall length, wc_wrap text length = wrap_loop length (tokens text) [] 0.
Proof.
  repeat split.
  - apply re_split_concat.
  - unfold tokens. rewrite concat_filter_nonempty. apply re_split_concat.
  - unfold tokens. apply Forall_forall. intros word Hin.
    apply filter_In in Hin. destruct Hin as [_ Hne].
    now destruct word.
  - intros length. unfold wc_wrap, tokens. apply wrap_loop_filter.
Qed.

(** ** The greedy wrap *)

Lemma measurable_concat (l : list str) :
  Forall measurable l -> measurable (concat l).
Proof. intros H. now apply Forall_concat. Qed.

Lemma flush_within (line : str) (fits : bool) (length : Z) :
  0 <= length -> measurable line ->
  (fits = true -> wcswidth line <= length) ->
  Forall (within length) (flush line fits length).
Proof.
  intros Hl Hm Hfits. unfold flush. destruct fits.
  - constructor; [|constructor]. left. now apply Hfits.
  - now apply hard_wrap_within.
Qed.

(** The state of the loop: the words of the line are measurable and
    [line_len] is the width of the line they form. *)
Lemma wrap_loop_within (length : Z) (words : list str) :
  1 <= length -> Forall measurable words ->
  forall (line_words : list str) (line_len : Z),
    Forall measurable line_words ->
    line_len = wcswidth (concat line_words) ->
    raised (wrap_loop length words line_words line_len) = None
    /\ Forall (within length)
         (yielded (wrap_loop length words line_words line_len)).
Proof.
  intros Hl. induction 1 as [|word words Hword Hwords IH];
    intros line_words line_len Hlw Hlen.
  - cbn [wrap_loop]. destruct (is_empty line_words); [split; [reflexivity|constructor]|].
    split; [reflexivity|]. cbn [yielded fst].
    pose proof (measurable_concat _ Hlw) as Hm.
    apply flush_within; [lia|now apply Forall_rstrip|].
    intros Hfits. apply Z.leb_le in Hfits.
    pose proof (wcswidth_rstrip_le _ Hm). lia.
  - cbn [wrap_loop]. destruct (is_empty word); [now apply IH|].
    pose proof (measurable_concat _ Hlw) as Hm.
    pose proof (Forall_rstrip _ _ Hm) as Hms.
    set (striped_line := rstrip (concat line_words)) in *.
    assert (Hmod : exists line_len1,
               (if wcswidth striped_line >? length
                then py_mod line_len length else Ok line_len) = Ok line_len1).
    { destruct (wcswidth striped_line >? length); [|now eexists].
      unfold py_mod. destruct (Z.eqb_spec length 0); [lia|now eexists]. }
    destruct Hmod as [line_len1 ->].
    set (break := negb (is_empty line_words)
                  && (line_len1 + wcswidth word >? length)
                  && (line_len1 + wcswidth (rstrip word) >? length)).
    set (line_words1 := if break then [] else line_words).
    assert (Hlw1 : Forall measurable (line_words1 ++ [word])).
    { apply Forall_app. split; [|now repeat constructor].
      unfold line_words1. destruct break; [constructor|exact Hlw]. }
    assert (Hlen1 : wcswidth (concat line_words1) + wcswidth word
                    = wcswidth (concat (line_words1 ++ [word]))).
    { pose proof (measurable_concat _ Hlw1) as Hc.
      rewrite concat_app in *. cbn [concat] in *. rewrite app_nil_r in *.
      now rewrite (wcswidth_app _ _ Hc). }
    destruct (IH (line_words1 ++ [word]) _ Hlw1 Hlen1) as [Hr Hy].
    destruct (wrap_loop length words (line_words1 ++ [word])
                (wcswidth (concat line_words1) + wcswidth word)) as [rest e].
    cbn [raised yielded fst snd] in *. split; [exact Hr|].
    apply Forall_app. split; [|exact Hy].
    destruct break; [|constructor].
    apply flush_within; [lia|exact Hms|]. intros Hfits. now apply Z.leb_le.
Qed.

(** C1, amended: on a text of defined width and for [length >= 1], [wc_wrap]
    runs to its end and every line it yields has a width of at most
    [length], or is one character that alone is wider than [length]. *)
Theorem wrap_width_bound (text : str) (length : Z) :
  1 <= length -> 0 <= wcswidth text ->
  raised (wc_wrap text length) = None
  /\ Forall (within length) (yielded (wc_wrap text length)).
Proof.
  intros Hl Hw. unfold wc_wrap.
  apply wrap_loop_within; [exact Hl| |constructor|reflexivity].
  apply Forall_concat. rewrite re_split_concat.
  now apply wcswidth_nonneg_measurable.
Qed.

(** ** [trunc] *)

Lemma lstrip_snoc (s : str) (c : char) :
  isspace c = false -> lstrip (s ++ [c]) = lstrip s ++ [c].
Proof.
  intros Hc. induction s as [|d s IH]; simpl.
  - now rewrite Hc.
  - destruct (isspace d); [exact IH|reflexivity].
Qed.

Lemma rstrip_cons (c : char) (s : str) :
  isspace c = false -> rstrip (c :: s) = c :: rstrip s.
Proof.
  intros Hc. unfold rstrip. simpl.
  rewrite (lstrip_snoc _ _ Hc), rev_app_distr. reflexivity.
Qed.

Lemma strip_nil_or_head (s : str) :
  strip s = [] \/ exists c s', strip s = c :: s' /\ isspace c = false.
Proof.
  unfold strip. destruct (lstrip_nil_or_head s) as [->|(c & s' & -> & Hc)].
  - now left.
  - right. exists c, (rstrip s'). split; [now apply rstrip_cons|exact Hc].
Qed.

(** A prefix of a stripped text has no whitespace in front: [strip]
    takes whitespace off its end only. *)
Lemma strip_prefix_of_stripped (s p t : str) :
  strip s = p ++ t -> strip p = rstrip p.
Proof.
  intros H. unfold strip at 1. f_equal.
  destruct p as [|c p]; [reflexivity|].
  destruct (strip_nil_or_head s) as [E|(d & s' & E & Hd)];
    rewrite E in H; [discriminate|].
  injection H as <- _. now apply lstrip_head.
Qed.

Lemma firstn_snoc (n : nat) (l : str) :
  (n < List.length l)%nat ->
  exists d, In d l /\ firstn (S n) l = firstn n l ++ [d].
Proof.
  revert l. induction n as [|n IH]; intros [|c l] Hlen; simpl in Hlen; try lia.
  - exists c. split; [now left|reflexivity].
  - destruct (IH l ltac:(lia)) as (d & Hin & E).
    exists d. split; [now right|]. cbn [firstn] in *. now rewrite E.
Qed.

(** The scan stops after [j >= 1] characters, and what is left in front
    of them fits [length]. *)
Lemma trunc_scan_spec (text_length length : Z) (rtext : str) :
  0 <= length -> measurable rtext ->
  forall (chars_to_truncate : nat) (trunc_length : Z),
    text_length - trunc_length = wcswidth (rev rtext) ->
    exists j,
      trunc_scan rtext text_length length chars_to_truncate trunc_length
      = (chars_to_truncate + j)%nat
      /\ (j <= List.length rtext)%nat
      /\ (rtext <> [] -> (1 <= j)%nat)
      /\ wcswidth (rev (skipn j rtext)) <= length.
Proof.
  intros Hl. induction 1 as [|char rtext Hc Hm IH];
    intros chars_to_truncate trunc_length Hinv.
  - exists 0%nat. simpl in *. rewrite wcswidth_nil in *.
    repeat split; try lia. congruence.
  - assert (Hrest : text_length - (trunc_length + wcwidth char)
                    = wcswidth (rev rtext)).
    { simpl in Hinv. rewrite wcswidth_app in Hinv.
      - rewrite wcswidth_singleton in Hinv by exact Hc. lia.
      - apply Forall_app. split; [now apply Forall_rev|].
        repeat constructor. exact Hc. }
    cbn [trunc_scan].
    destruct (Z.leb_spec (text_length - (trunc_length + wcwidth char)) length)
      as [Hle|Hgt].
    + exists 1%nat. simpl. repeat split; try lia.
    + destruct (IH (S chars_to_truncate) _ Hrest) as (j & E & Hj & _ & Hw).
      exists (S j). rewrite E. simpl. repeat split; lia.
Qed.

(** What [trunc] returns for [length >= 1]: the stripped text when it
    fits, and otherwise a strict prefix of the stripped text followed by
    the ellipsis.  The prefix and the ellipsis
    fit [length] when the ellipsis has width 1 and every character of the
    text has a width of at least 1. *)
Lemma trunc_shape (text : str) (length : Z) :
  1 <= length ->
  (wcswidth (strip text) <= length /\ trunc text length = Ok (strip text))
  \/ (length < wcswidth (strip text)
      /\ exists kept removed,
          strip text = kept ++ removed
          /\ removed <> []
          /\ trunc text length = Ok (kept ++ [ELLIPSIS])
          /\ (wcwidth ELLIPSIS = 1 ->
              Forall (fun c => 1 <= wcwidth c) text ->
              measurable (kept ++ [ELLIPSIS])
              /\ wcswidth (kept ++ [ELLIPSIS]) <= length)).
Proof.
  intros Hl. unfold trunc.
  destruct (Z.ltb_spec length 1) as [Hlt|_]; [lia|].
  set (stripped := strip text).
  destruct (Z.leb_spec (wcswidth stripped) length) as [Hfit|Hover].
  - left. now split.
  - right. split; [exact Hover|].
    assert (Hm : measurable stripped)
      by (apply wcswidth_nonneg_measurable; lia).
    assert (Hne : stripped <> [])
      by (intros E; rewrite E, wcswidth_nil in Hover; lia).
    destruct (trunc_scan_spec (wcswidth stripped) length (rev stripped)
                ltac:(lia) (Forall_rev Hm) 0%nat 0) as (j & E & Hj & Hj1 & Hw).
    { rewrite rev_involutive. lia. }
    rewrite E. cbn [Nat.add]. rewrite length_rev in Hj.
    rewrite skipn_rev, rev_involutive in Hw.
    assert (1 <= j)%nat as Hj1'.
    { apply Hj1. intros Er. apply Hne.
      now rewrite <- (rev_involutive stripped), Er. }
    unfold drop_last.
    set (m := (List.length stripped - S j)%nat).
    assert (Hsplit : stripped = firstn m stripped ++ skipn m stripped)
      by (now rewrite firstn_skipn).
    rewrite (strip_prefix_of_stripped text _ _ Hsplit).
    destruct (rstrip_prefix (firstn m stripped)) as [t Ht].
    exists (rstrip (firstn m stripped)), (t ++ skipn m stripped).
    split; [now rewrite app_assoc, <- Ht|].
    split.
    { intros Er. apply (f_equal (@List.length char)) in Er.
      rewrite length_app, length_skipn in Er. unfold m in Er. simpl in Er. lia. }
    split; [reflexivity|].
    intros He Hpos.
    pose proof (Forall_strip _ _ Hpos) as Hpos'. fold stripped in Hpos'.
    assert (Hmk : measurable (firstn m stripped)).
    { rewrite Hsplit in Hm. now apply Forall_app in Hm. }
    assert (Hk : wcswidth (firstn m stripped) <= length - 1).
    { destruct (Nat.eq_dec (List.length stripped) j) as [Ej|Nj].
      - replace m with 0%nat by (unfold m; lia). simpl. rewrite wcswidth_nil. lia.
      - destruct (firstn_snoc m stripped ltac:(unfold m; lia)) as (d & Hin & Ed).
        replace (S m) with (List.length stripped - j)%nat in Ed by (unfold m; lia).
        rewrite Ed in Hw. rewrite wcswidth_app in Hw.
        + pose proof (proj1 (Forall_forall _ _) Hpos' d Hin) as Hd.
          simpl in Hd. rewrite wcswidth_singleton in Hw by lia. lia.
        + rewrite <- Ed. rewrite <- (firstn_skipn (List.length stripped - j) stripped) in Hm.
          now apply Forall_app in Hm. }
    assert (Hmr : measurable (rstrip (firstn m stripped) ++ [ELLIPSIS])).
    { apply Forall_app. split; [now apply Forall_rstrip|].
      repeat constructor. lia. }
    split; [exact Hmr|].
    rewrite (wcswidth_app _ _ Hmr), wcswidth_singleton by lia.
    pose proof (wcswidth_rstrip_le _ Hmk). lia.
Qed.

Lemma trunc_ok (text : str) (length : Z) :
  1 <= length -> exists r, trunc text length = Ok r.
Proof.
  intros Hl. destruct (trunc_shape text length Hl)
    as [[_ E]|(_ & kept & removed & _ & _ & E & _)]; eexists; exact E.
Qed.

(** ** [fit_text] *)

Lemma fit_text_fits (text : str) (length : Z) :
  wcswidth text <= length -> fit_text text length = Ok (pad text length).
Proof.
  intros H. unfold fit_text, pad.
  destruct (Z.gtb_spec (wcswidth text) length); [lia|].
  now destruct (wcswidth text <? length).
Qed.

Lemma fit_text_over (text : str) (length : Z) :
  length < wcswidth text -> fit_text text length = trunc text length.
Proof.
  intros H. unfold fit_text.
  destruct (Z.gtb_spec (wcswidth text) length); [reflexivity|lia].
Qed.

(** The truncation branch of [fit_text] on a text whose characters all
    have a width of at least 1: the result fits [length]. *)
Lemma fit_text_trunc_le (text : str) (length : Z) :
  1 <= length -> wcwidth ELLIPSIS = 1 ->
  length < wcswidth text ->
  Forall (fun c => 1 <= wcwidth c) text ->
  exists r, fit_text text length = Ok r /\ trunc text length = Ok r
            /\ 0 <= wcswidth r <= length.
Proof.
  intros Hl He Hover Hpos. rewrite (fit_text_over _ _ Hover).
  assert (Hm : measurable text)
    by (eapply Forall_impl; [|exact Hpos]; simpl; intros; lia).
  destruct (trunc_shape text length Hl)
    as [[Hfit E]|(_ & kept & removed & _ & _ & E & Hw)].
  - exists (strip text). repeat split; try assumption.
    apply wcswidth_measurable_nonneg. now apply Forall_strip.
  - destruct (Hw He Hpos) as [Hmk Hle].
    exists (kept ++ [ELLIPSIS]). repeat split; try assumption.
    now apply wcswidth_measurable_nonneg.
Qed.

(** C3, amended: for a text of defined width and [length >= 1], [fit_text]
    returns a text of width exactly [length] when the width of the text
    is at most [length]: the text followed by [length - wcswidth text]
    spaces when it is narrower, the text itself when the widths are
    equal.  When the text is wider it returns what [trunc] returns: when
    every character of the text has a width of at least 1 that is a text
    of width at most [length], the stripped text or a strict prefix of it
    followed by the ellipsis. *)
Theorem fit_text_width (text : str) (length : Z) :
  1 <= length -> 0 <= wcswidth text ->
  wcwidth SPACE = 1 -> wcwidth ELLIPSIS = 1 ->
  (wcswidth text < length ->
   fit_text text length
   = Ok (text ++ repeat SPACE (Z.to_nat (length - wcswidth text)))
   /\ wcswidth (text ++ repeat SPACE (Z.to_nat (length - wcswidth text)))
      = length)
  /\ (wcswidth text = length -> fit_text text length = Ok text)
  /\ (length < wcswidth text ->
      fit_text text length = trunc text length
      /\ (Forall (fun c => 1 <= wcwidth c) text ->
          exists r,
            fit_text text length = Ok r
            /\ 0 <= wcswidth r <= length
            /\ (r = strip text
                \/ exists kept removed,
                    strip text = kept ++ removed /\ removed <> []
                    /\ r = kept ++ [ELLIPSIS]))).
Proof.
  intros Hl Hw Hsp He. split; [|split].
  - intros Hlt.
    assert (Ep : pad text length
                 = text ++ repeat SPACE (Z.to_nat (length - wcswidth text))).
    { unfold pad. destruct (Z.ltb_spec (wcswidth text) length); [reflexivity|lia]. }
    rewrite <- Ep. split; [apply fit_text_fits; lia|].
    rewrite pad_wcswidth by assumption. lia.
  - intros Heq. rewrite fit_text_fits by lia. unfold pad.
    destruct (Z.ltb_spec (wcswidth text) length); [lia|reflexivity].
  - intros Hover. split; [now apply fit_text_over|]. intros Hpos.
    rewrite (fit_text_over _ _ Hover).
    destruct (trunc_shape text length Hl)
      as [[Hfit E]|(_ & kept & removed & Es & Hne & E & Hk)].
    + exists (strip text). split; [exact E|]. split; [|now left].
      split; [|exact Hfit]. apply wcswidth_measurable_nonneg, Forall_strip.
      now apply wcswidth_nonneg_measurable.
    + destruct (Hk He Hpos) as [Hmk Hle].
      exists (kept ++ [ELLIPSIS]). split; [exact E|]. split.
      * split; [now apply wcswidth_measurable_nonneg|exact Hle].
      * right. now exists kept, removed.
Qed.

(** C4, amended: for a text of defined width and [length >= 1], fitting
    the result of [fit_text] again gives the same text when the width of
    the text is at most [length]; when the text is wider and every
    character has a width of at least 1, the second [fit_text] pads the
    truncated text to [length]. *)
Theorem fit_text_twice (text : str) (length : Z) :
  1 <= length -> 0 <= wcswidth text ->
  wcwidth SPACE = 1 -> wcwidth ELLIPSIS = 1 ->
  exists r,
    fit_text text length = Ok r
    /\ (wcswidth text <= length -> fit_text r length = Ok r)
    /\ (Forall (fun c => 1 <= wcwidth c) text ->
        fit_text r length = Ok (pad r length)).
Proof.
  intros Hl Hw Hsp He.
  destruct (Z.le_gt_cases (wcswidth text) length) as [Hfit|Hover].
  - exists (pad text length). split; [now apply fit_text_fits|].
    assert (Hp : wcswidth (pad text length) = length)
      by (rewrite pad_wcswidth by assumption; lia).
    split; intros _.
    + rewrite fit_text_fits by lia. unfold pad at 1. rewrite Hp.
      now rewrite Z.ltb_irrefl.
    + apply fit_text_fits. lia.
  - destruct (trunc_ok text length Hl) as [r E].
    exists r. split; [now rewrite fit_text_over by lia|].
    split; [intros Hfit; lia|]. intros Hpos.
    destruct (fit_text_trunc_le text length Hl He ltac:(lia) Hpos)
      as (r' & _ & E' & Hr).
    rewrite E in E'. injection E' as <-. apply fit_text_fits. lia.
Qed.

(** C6, amended: [trunc] raises [ValueError] exactly when [length < 1],
    whatever the text; [fit_text] has no check of its own and raises
    exactly when it calls [trunc] with such a length, that is when
    [length < 1] and the text is wider than [length]; for [length >= 1]
    both return a text. *)
Theorem trunc_fit_raise (text : str) (length : Z) :
  (trunc text length = Raise ValueError <-> length < 1)
  /\ (fit_text text length = Raise ValueError
      <-> length < 1 /\ length < wcswidth text)
  /\ (1 <= length ->
      (exists r, trunc text length = Ok r)
      /\ (exists r, fit_text text length = Ok r)).
Proof.
  assert (Ht : trunc text length = Raise ValueError <-> length < 1).
  { unfold trunc. destruct (Z.ltb_spec length 1) as [Hlt|Hge].
    - split; [intros _; exact Hlt|reflexivity].
    - split; [|lia].
      destruct (wcswidth (strip text) <=? length); discriminate. }
  split; [exact Ht|]. split.
  - unfold fit_text. destruct (Z.gtb_spec (wcswidth text) length) as [Hgt|Hle].
    + rewrite Ht. split; [intros H; split; lia|intros [H _]; exact H].
    + split; [|lia]. destruct (wcswidth text <? length); discriminate.
  - intros Hl. split; [now apply trunc_ok|].
    destruct (Z.le_gt_cases (wcswidth text) length) as [Hfit|Hover].
    + eexists. now apply fit_text_fits.
    + rewrite fit_text_over by lia. now apply trunc_ok.
Qed.

(** ** A first character wider than the line *)

Lemma isspace_not_newline (c : char) : isspace c = false -> (c =? NEWLINE) = false.
Proof.
  intros H. destruct (Z.eqb_spec c NEWLINE) as [->|]; [|reflexivity].
  discriminate H.
Qed.

Lemma re_split_singleton (c : char) :
  isspace c = false -> re_split [c] = [[]; [c]; []].
Proof.
  intros H. unfold re_split. cbn [List.length split_loop match_at].
  rewrite (isspace_not_newline c H). reflexivity.
Qed.

Lemma rstrip_singleton (c : char) : isspace c = false -> rstrip [c] = [c].
Proof. intros H. now rewrite rstrip_cons. Qed.

(** C10: when the first character of the line is wider than [length],
    the hard wrap yields the empty string first and then a chunk that
    starts with that character; so [wc_wrap] can yield an empty line: a
    text made of one such character, not a whitespace, is wrapped into
    the empty line followed by the character. *)
Theorem hard_wrap_wide_first (c : char) (line : str) (length : Z) :
  1 <= length -> length < wcwidth c ->
  (exists chunk rest,
      _wc_hard_wrap (c :: line) length = [] :: (c :: chunk) :: rest)
  /\ (isspace c = false -> wc_wrap [c] length = ([[]; [c]], None)).
Proof.
  intros Hl Hc. split.
  - unfold _wc_hard_wrap. cbn [hard_wrap_loop].
    destruct (Z.gtb_spec (0 + wcwidth c) length) as [_|Hle]; [|lia].
    destruct (hard_wrap_loop_head length line c [] (0 + wcwidth c))
      as (chunk & rest & E).
    exists chunk, rest. cbn [app]. now rewrite E.
  - intros Hsp. unfold wc_wrap. rewrite (re_split_singleton c Hsp).
    cbn [wrap_loop is_empty concat app].
    change (rstrip []) with (@nil char). rewrite wcswidth_nil.
    destruct (Z.gtb_spec 0 length) as [Hgt|_]; [lia|].
    cbn [negb andb is_empty app concat]. rewrite wcswidth_nil.
    rewrite (rstrip_singleton c Hsp), wcswidth_singleton by lia.
    destruct (Z.leb_spec (0 + wcwidth c) length) as [Hle|_]; [lia|].
    unfold flush, _wc_hard_wrap. cbn [hard_wrap_loop].
    destruct (Z.gtb_spec (0 + wcwidth c) length) as [_|Hle]; [|lia].
    reflexivity.
Qed.

(** ** More on the hard wrap *)

Lemma hard_wrap_loop_nonempty (length : Z) (line : str) :
  forall (c : char) (chars : str) (chars_len : Z),
    Forall (fun chunk => chunk <> [])
      (hard_wrap_loop length line (c :: chars) chars_len).
Proof.
  induction line as [|char line IH]; intros c chars chars_len; simpl.
  - constructor; [discriminate|constructor].
  - destruct (chars_len + wcwidth char >? length).
    + constructor; [discriminate|]. apply IH.
    + apply IH.
Qed.

(** X1: on a line of defined width and for [length >= 0], every chunk of
    the hard wrap has a width of at most [length] or is one character
    wider than [length]; no chunk after the first is empty, and the first
    is empty exactly when the line starts with a character wider than
    [length]. *)
Theorem hard_wrap_chunks (line : str) (length : Z) :
  0 <= length -> 0 <= wcswidth line ->
  Forall (within length) (_wc_hard_wrap line length)
  /\ Forall (fun chunk => chunk <> []) (tl (_wc_hard_wrap line length))
  /\ (hd_error (_wc_hard_wrap line length) = Some []
      <-> exists c line', line = c :: line' /\ length < wcwidth c).
Proof.
  intros Hl Hw. split.
  { apply hard_wrap_within; [exact Hl|now apply wcswidth_nonneg_measurable]. }
  unfold _wc_hard_wrap. destruct line as [|c line]; cbn [hard_wrap_loop is_empty].
  - split; [constructor|]. split; [discriminate|].
    intros (c & line' & E & _). discriminate E.
  - cbn [app]. destruct (Z.gtb_spec (0 + wcwidth c) length) as [Hgt|Hle].
    + split; [apply hard_wrap_loop_nonempty|]. split; [|reflexivity].
      intros _. exists c, line. split; [reflexivity|lia].
    + pose proof (hard_wrap_loop_nonempty length line c [] (0 + wcwidth c)) as Hne.
      destruct (hard_wrap_loop_head length line c [] (0 + wcwidth c))
        as (chunk & rest & E).
      rewrite E in *. inversion Hne; subst. split; [assumption|].
      split; [discriminate|].
      intros (c' & line' & E' & Hc'). injection E' as <- <-. lia.
Qed.

Lemma hard_wrap_loop_fits (length : Z) (line : str) :
  measurable line ->
  forall (chars : str) (chars_len : Z),
    chars_len + wcswidth line <= length ->
    hard_wrap_loop length line chars chars_len
    = if is_empty (chars ++ line) then [] else [chars ++ line].
Proof.
  induction 1 as [|char line Hc Hline IH]; intros chars chars_len Hfit.
  - cbn [hard_wrap_loop]. now rewrite app_nil_r.
  - cbn [hard_wrap_loop].
    rewrite wcswidth_cons in Hfit by (constructor; assumption).
    pose proof (wcswidth_measurable_nonneg line Hline) as Hpos.
    destruct (Z.gtb_spec (chars_len + wcwidth char) length) as [Hgt|_]; [lia|].
    rewrite IH by lia. rewrite <- app_assoc. cbn [app].
    now destruct chars.
Qed.

(** X2: a line of defined width that fits [length] is not cut: the hard
    wrap yields it as its only chunk, and yields nothing for the empty
    line. *)
Theorem hard_wrap_fits (line : str) (length : Z) :
  0 <= wcswidth line -> wcswidth line <= length ->
  _wc_hard_wrap line length = if is_empty line then [] else [line].
Proof.
  intros Hw Hfit. unfold _wc_hard_wrap.
  rewrite hard_wrap_loop_fits;
    [reflexivity|now apply wcswidth_nonneg_measurable|lia].
Qed.

Lemma hard_wrap_loop_greedy (length : Z) (line : str) :
  measurable line ->
  forall (chars : str) (chars_len : Z),
    measurable chars -> chars_len = wcswidth chars ->
    greedy_chunks length (hard_wrap_loop length line chars chars_len).
Proof.
  induction 1 as [|char line Hc Hline IH]; intros chars chars_len Hm Hlen.
  - cbn [hard_wrap_loop]. destruct (is_empty chars); exact I.
  - cbn [hard_wrap_loop].
    destruct (Z.gtb_spec (chars_len + wcwidth char) length) as [Hgt|Hle].
    + cbn [app].
      assert (Hrest : greedy_chunks length
                        (hard_wrap_loop length line [char] (0 + wcwidth char))).
      { apply IH; [repeat constructor; exact Hc|].
        rewrite wcswidth_singleton by exact Hc. lia. }
      destruct (hard_wrap_loop_head length line char [] (0 + wcwidth char))
        as (chunk & rest & E).
      rewrite E in *. cbn [greedy_chunks]. split; [lia|exact Hrest].
    + assert (Hm' : measurable (chars ++ [char])).
      { apply Forall_app. split; [exact Hm|]. repeat constructor. exact Hc. }
      apply IH; [exact Hm'|].
      rewrite (wcswidth_app _ _ Hm'), wcswidth_singleton by exact Hc. lia.
Qed.

Lemma greedy_chunks_adjacent (length : Z) (pre : list str) :
  forall (a b : str) (post : list str),
    greedy_chunks length (pre ++ a :: b :: post) ->
    exists c b', b = c :: b' /\ length < wcswidth a + wcwidth c.
Proof.
  induction pre as [|p pre IH]; intros a b post H.
  - cbn [app greedy_chunks] in H. destruct H as [H _].
    destruct b as [|c b']; [contradiction|]. now exists c, b'.
  - apply (IH a b post). cbn [app] in H.
    destruct (pre ++ a :: b :: post) eqn:E; [exact I|].
    cbn [greedy_chunks] in H. now destruct H.
Qed.

(** X3: the hard wrap is greedy: on a line of defined width, whenever a
    chunk is followed by another one, the second is not empty and its
    first character did not fit the first chunk, which with it would be
    wider than [length]. *)
Theorem hard_wrap_greedy (line : str) (length : Z)
    (pre : list str) (a b : str) (post : list str) :
  0 <= wcswidth line ->
  _wc_hard_wrap line length = pre ++ a :: b :: post ->
  exists c b', b = c :: b' /\ length < wcswidth a + wcwidth c.
Proof.
  intros Hw E. apply (greedy_chunks_adjacent length pre a b post).
  rewrite <- E. unfold _wc_hard_wrap.
  apply hard_wrap_loop_greedy;
    [now apply wcswidth_nonneg_measurable|constructor|reflexivity].
Qed.

(** ** More on the greedy wrap *)

Lemma py_mod_cases (a b : Z) :
  (b <> 0 /\ py_mod a b = Ok (a mod b))
  \/ (b = 0 /\ py_mod a b = Raise ZeroDivisionError).
Proof.
  unfold py_mod. destruct (Z.eqb_spec b 0); [right|left]; now split.
Qed.

Lemma wrap_loop_raised (length : Z) (words : list str) :
  forall (line_words : list str) (line_len : Z),
    raised (wrap_loop length words line_words line_len) = None
    \/ (length = 0
        /\ raised (wrap_loop length words line_words line_len)
           = Some ZeroDivisionError).
Proof.
  induction words as [|word words IH]; intros line_words line_len.
  - left. cbn [wrap_loop]. now destruct (is_empty line_words).
  - cbn [wrap_loop]. destruct (is_empty word); [apply IH|].
    destruct (wcswidth (rstrip (concat line_words)) >? length).
    + destruct (py_mod_cases line_len length) as [[_ ->]|[Hz ->]].
      * match goal with
        | |- context [wrap_loop length words ?lw ?ll] =>
            specialize (IH lw ll); destruct (wrap_loop length words lw ll)
        end. exact IH.
      * right. now split.
    + match goal with
      | |- context [wrap_loop length words ?lw ?ll] =>
          specialize (IH lw ll); destruct (wrap_loop length words lw ll)
      end. exact IH.
Qed.

(** X4: [wc_wrap] raises nothing but [ZeroDivisionError], and only for
    [length = 0]: for every other length, negative ones too, and for
    every text it runs to its end. *)
Theorem wc_wrap_raises (text : str) (length : Z) :
  raised (wc_wrap text length) = None
  \/ (length = 0 /\ raised (wc_wrap text length) = Some ZeroDivisionError).
Proof. unfold wc_wrap. apply wrap_loop_raised. Qed.

Lemma tokens_nonempty (text : str) (word : str) :
  In word (tokens text) -> is_empty word = false.
Proof.
  unfold tokens. intros H. apply filter_In in H. destruct H as [_ H].
  now destruct word.
Qed.

(** X5: at [length = 0], a text of at least two words whose first word
    has a positive width once stripped makes [wc_wrap] raise
    [ZeroDivisionError] before it yields a line. *)
Theorem wc_wrap_zero_length (text : str) (word1 word2 : str) (words : list str) :
  tokens text = word1 :: word2 :: words ->
  0 < wcswidth (rstrip word1) ->
  wc_wrap text 0 = ([], Some ZeroDivisionError).
Proof.
  intros E Hw. unfold wc_wrap. rewrite wrap_loop_filter. fold (tokens text).
  assert (H1 : is_empty word1 = false)
    by (apply (tokens_nonempty text); rewrite E; now left).
  assert (H2 : is_empty word2 = false)
    by (apply (tokens_nonempty text); rewrite E; right; now left).
  rewrite E. cbn [wrap_loop]. rewrite H1.
  cbn [concat is_empty negb andb app]. change (rstrip []) with (@nil char).
  rewrite wcswidth_nil. cbn [Z.gtb Z.compare].
  cbn [wrap_loop]. rewrite H2. cbn [concat]. rewrite app_nil_r.
  destruct (Z.gtb_spec (wcswidth (rstrip word1)) 0) as [_|Hle]; [|lia].
  reflexivity.
Qed.

Lemma lstrip_suffix_space (s : str) :
  exists p, s = p ++ lstrip s /\ Forall (fun c => isspace c = true) p.
Proof.
  induction s as [|c s IH]; simpl.
  - exists []. split; [reflexivity|constructor].
  - destruct (isspace c) eqn:E.
    + destruct IH as (p & Hp & Hsp). exists (c :: p). split.
      * simpl. now rewrite <- Hp.
      * now constructor.
    + exists []. split; [reflexivity|constructor].
Qed.

Lemma visible_app (a b : str) : visible (a ++ b) = visible a ++ visible b.
Proof. apply filter_app. Qed.

Lemma visible_rev (s : str) : visible (rev s) = rev (visible s).
Proof.
  unfold visible. induction s as [|c s IH]; simpl; [reflexivity|].
  rewrite filter_app, IH. simpl. destruct (isspace c); simpl.
  - now rewrite app_nil_r.
  - reflexivity.
Qed.

Lemma visible_space (p : str) :
  Forall (fun c => isspace c = true) p -> visible p = [].
Proof.
  induction 1 as [|c p Hc Hp IH]; simpl; [reflexivity|]. now rewrite Hc.
Qed.

Lemma visible_lstrip (s : str) : visible (lstrip s) = visible s.
Proof.
  destruct (lstrip_suffix_space s) as (p & Hp & Hsp).
  rewrite Hp at 2. now rewrite visible_app, (visible_space p Hsp).
Qed.

Lemma visible_rstrip (s : str) : visible (rstrip s) = visible s.
Proof.
  unfold rstrip. now rewrite visible_rev, visible_lstrip, visible_rev, rev_involutive.
Qed.

Lemma flush_concat (line : str) (fits : bool) (length : Z) :
  concat (flush line fits length) = line.
Proof.
  unfold flush, _wc_hard_wrap. destruct fits.
  - simpl. apply app_nil_r.
  - now rewrite hard_wrap_loop_concat.
Qed.

Lemma wrap_loop_visible (length : Z) (words : list str) :
  length <> 0 ->
  forall (line_words : list str) (line_len : Z),
    visible (concat (yielded (wrap_loop length words line_words line_len)))
    = visible (concat line_words ++ concat words).
Proof.
  intros Hl. induction words as [|word words IH]; intros line_words line_len.
  - cbn [wrap_loop concat]. rewrite app_nil_r.
    destruct line_words as [|w lw]; [reflexivity|]. cbn [is_empty yielded fst].
    now rewrite flush_concat, visible_rstrip.
  - cbn [wrap_loop]. destruct word as [|c word]; [apply IH|]. cbn [is_empty].
    set (w := c :: word).
    assert (Hmod : exists line_len1,
               (if wcswidth (rstrip (concat line_words)) >? length
                then py_mod line_len length else Ok line_len) = Ok line_len1).
    { destruct (wcswidth (rstrip (concat line_words)) >? length); [|now eexists].
      destruct (py_mod_cases line_len length) as [[_ ->]|[Hz _]];
        [now eexists|contradiction]. }
    destruct Hmod as [line_len1 ->].
    match goal with
    | |- context [wrap_loop length words ?lw ?ll] =>
        specialize (IH lw ll); destruct (wrap_loop length words lw ll) as [rest e]
    end.
    cbn [yielded fst] in *. rewrite concat_app, visible_app, IH.
    cbn [concat]. rewrite !visible_app.
    destruct (negb (is_empty line_words)
              && (line_len1 + wcswidth w >? length)
              && (line_len1 + wcswidth (rstrip w) >? length)).
    + rewrite flush_concat, visible_rstrip. cbn [concat app].
      now rewrite app_nil_r.
    + rewrite concat_app. cbn [concat app visible filter].
      now rewrite app_nil_r, visible_app, <- app_assoc.
Qed.

Lemma wc_wrap_visible (text : str) (length : Z) :
  length <> 0 ->
  visible (concat (yielded (wc_wrap text length))) = visible text.
Proof.
  intros Hl. unfold wc_wrap. rewrite (wrap_loop_visible length _ Hl).
  cbn [concat app]. now rewrite re_split_concat.
Qed.

Lemma rstrip_prefix_space (s : str) :
  exists t, s = rstrip s ++ t /\ Forall (fun c => isspace c = true) t.
Proof.
  unfold rstrip. destruct (lstrip_suffix_space (rev s)) as (p & Hp & Hsp).
  exists (rev p). split; [|now apply Forall_rev].
  rewrite <- rev_app_distr, <- Hp. now rewrite rev_involutive.
Qed.

(** Chunks put in front of a text that is already lines and gaps: the
    whitespace [t] between them becomes the gap of the last chunk, or
    the leading gap when there is no chunk. *)
Lemma interleave_chunks (chunks : list str) :
  forall (t : str) (rest gaps' : list str),
    List.length gaps' = List.length rest ->
    Forall (fun c => isspace c = true) t ->
    Forall (Forall (fun c => isspace c = true)) gaps' ->
    exists lead gaps,
      List.length gaps = List.length (chunks ++ rest)
      /\ Forall (fun c => isspace c = true) lead
      /\ Forall (Forall (fun c => isspace c = true)) gaps
      /\ concat chunks ++ t ++ interleave rest gaps'
         = lead ++ interleave (chunks ++ rest) gaps.
Proof.
  induction chunks as [|chunk chunks IH]; intros t rest gaps' Hlen Ht Hg.
  - exists t, gaps'. cbn [concat app]. now repeat split.
  - destruct (IH t rest gaps' Hlen Ht Hg) as (lead & gaps & Hl & Hlead & Hgaps & E).
    exists [], (lead :: gaps). cbn [concat app interleave List.length].
    split; [now rewrite Hl|]. split; [constructor|].
    split; [now constructor|]. now rewrite <- app_assoc, E.
Qed.

Lemma wrap_loop_gaps (length : Z) (words : list str) :
  length <> 0 ->
  forall (line_words : list str) (line_len : Z),
  exists lead gaps,
    List.length gaps
    = List.length (yielded (wrap_loop length words line_words line_len))
    /\ Forall (fun c => isspace c = true) lead
    /\ Forall (Forall (fun c => isspace c = true)) gaps
    /\ concat line_words ++ concat words
       = lead ++ interleave
                   (yielded (wrap_loop length words line_words line_len)) gaps.
Proof.
  intros Hl. induction words as [|word words IH]; intros line_words line_len.
  - cbn [wrap_loop concat]. rewrite app_nil_r.
    destruct line_words as [|w lw].
    + exists [], []. cbn. repeat split; constructor.
    + cbn [is_empty yielded fst].
      destruct (rstrip_prefix_space (concat (w :: lw))) as (t & Et & Ht).
      destruct (interleave_chunks
                  (flush (rstrip (concat (w :: lw))) (line_len <=? length) length)
                  t [] [] eq_refl Ht ltac:(constructor))
        as (lead & gaps & Hlen & Hlead & Hgaps & E).
      rewrite app_nil_r in Hlen, E. cbn [interleave] in E.
      rewrite app_nil_r, flush_concat, <- Et in E.
      exists lead, gaps. now repeat split.
  - cbn [wrap_loop]. destruct word as [|c word].
    + cbn [is_empty concat app]. apply IH.
    + cbn [is_empty]. set (w := c :: word).
      assert (Hmod : exists line_len1,
                 (if wcswidth (rstrip (concat line_words)) >? length
                  then py_mod line_len length else Ok line_len) = Ok line_len1).
      { destruct (wcswidth (rstrip (concat line_words)) >? length); [|now eexists].
        destruct (py_mod_cases line_len length) as [[_ ->]|[Hz _]];
          [now eexists|contradiction]. }
      destruct Hmod as [line_len1 ->].
      match goal with
      | |- context [wrap_loop length words ?lw ?ll] =>
          destruct (IH lw ll) as (lead' & gaps' & Hlen' & Hlead' & Hgaps' & E');
          destruct (wrap_loop length words lw ll) as [rest e]
      end.
      cbn [yielded fst] in *. cbn [concat].
      destruct (negb (is_empty line_words)
                && (line_len1 + wcswidth w >? length)
                && (line_len1 + wcswidth (rstrip w) >? length)).
      * destruct (rstrip_prefix_space (concat line_words)) as (t & Et & Ht).
        destruct (interleave_chunks
                    (flush (rstrip (concat line_words))
                       (wcswidth (rstrip (concat line_words)) <=? length) length)
                    (t ++ lead') rest gaps' Hlen'
                    ltac:(apply Forall_app; now split) Hgaps')
          as (lead & gaps & Hlen & Hlead & Hgaps & E).
        exists lead, gaps. split; [exact Hlen|]. split; [exact Hlead|].
        split; [exact Hgaps|]. rewrite <- E, flush_concat.
        cbn [concat app] in E'. rewrite app_nil_r in E'.
        rewrite <- (app_assoc t lead'), <- E'.
        rewrite (app_assoc (rstrip (concat line_words)) t), <- Et. reflexivity.
      * exists lead', gaps'. split; [exact Hlen'|]. split; [exact Hlead'|].
        split; [exact Hgaps'|]. cbn [app]. rewrite <- E', concat_app.
        cbn [concat app]. now rewrite app_nil_r, <- app_assoc.
Qed.

(** X6: for [length <> 0] wrapping removes whitespace only, and only
    whole runs of it between lines: the text is a run of whitespace,
    possibly empty, followed by the yielded lines in order, each one
    followed by a run of whitespace, possibly empty.  So a line is a
    piece of the text as it stands, and the characters other than
    whitespace of the lines, read in order, are those of the text. *)
Theorem wc_wrap_gaps (text : str) (length : Z) :
  length <> 0 ->
  (exists lead gaps,
      List.length gaps = List.length (yielded (wc_wrap text length))
      /\ Forall (fun c => isspace c = true) lead
      /\ Forall (Forall (fun c => isspace c = true)) gaps
      /\ text = lead ++ interleave (yielded (wc_wrap text length)) gaps)
  /\ visible (concat (yielded (wc_wrap text length))) = visible text.
Proof.
  intros Hl. split; [|now apply wc_wrap_visible].
  unfold wc_wrap.
  destruct (wrap_loop_gaps length (re_split text) Hl [] 0)
    as (lead & gaps & Hlen & Hlead & Hgaps & E).
  exists lead, gaps. cbn [concat app] in E. rewrite re_split_concat in E.
  now repeat split.
Qed.

Lemma hard_wrap_loop_Forall (P : char -> Prop) (length : Z) (line : str) :
  Forall P line ->
  forall (chars : str) (chars_len : Z),
    Forall P chars ->
    Forall (Forall P) (hard_wrap_loop length line chars chars_len).
Proof.
  induction 1 as [|char line Hc Hline IH]; intros chars chars_len Hchars.
  - cbn [hard_wrap_loop]. destruct (is_empty chars); repeat constructor.
    exact Hchars.
  - cbn [hard_wrap_loop].
    destruct (chars_len + wcwidth char >? length).
    + constructor; [exact Hchars|]. apply IH. repeat constructor. exact Hc.
    + apply IH. apply Forall_app. split; [exact Hchars|].
      repeat constructor. exact Hc.
Qed.

Lemma flush_Forall (P : char -> Prop) (line : str) (fits : bool) (length : Z) :
  Forall P line -> Forall (Forall P) (flush line fits length).
Proof.
  intros H. unfold flush, _wc_hard_wrap. destruct fits.
  - repeat constructor. exact H.
  - apply hard_wrap_loop_Forall; [exact H|constructor].
Qed.

Lemma wrap_loop_Forall (P : char -> Prop) (length : Z) (words : list str) :
  Forall (Forall P) words ->
  forall (line_words : list str) (line_len : Z),
    Forall (Forall P) line_words ->
    Forall (Forall P) (yielded (wrap_loop length words line_words line_len)).
Proof.
  induction 1 as [|word words Hword Hwords IH]; intros line_words line_len Hlw.
  - cbn [wrap_loop]. destruct (is_empty line_words); [constructor|].
    cbn [yielded fst]. apply flush_Forall, Forall_rstrip.
    now apply Forall_concat.
  - cbn [wrap_loop]. destruct (is_empty word); [now apply IH|].
    destruct (if wcswidth (rstrip (concat line_words)) >? length
              then py_mod line_len length else Ok line_len) as [line_len1|e];
      [|constructor].
    set (break := negb (is_empty line_words)
                  && (line_len1 + wcswidth word >? length)
                  && (line_len1 + wcswidth (rstrip word) >? length)).
    assert (Hlw1 : Forall (Forall P) ((if break then [] else line_words) ++ [word])).
    { apply Forall_app. split; [|now repeat constructor].
      destruct break; [constructor|exact Hlw]. }
    match goal with
    | |- context [wrap_loop length words ?lw ?ll] =>
        specialize (IH lw ll Hlw1);
        destruct (wrap_loop length words lw ll) as [rest e]
    end.
    cbn [yielded fst] in *. apply Forall_app. split; [|exact IH].
    destruct break; [|constructor].
    apply flush_Forall, Forall_rstrip. now apply Forall_concat.
Qed.

Lemma wc_wrap_Forall (P : char -> Prop) (text : str) (length : Z) :
  Forall P text -> Forall (Forall P) (yielded (wc_wrap text length)).
Proof.
  intros H. unfold wc_wrap. apply wrap_loop_Forall; [|constructor].
  apply Forall_concat. now rewrite re_split_concat.
Qed.

(** X7: wrapping invents no character: every character of every line
    that [wc_wrap] yields, whitespace included, is a character of the
    text, for every length and also when the generator ends by raising. *)
Theorem wc_wrap_chars (text : str) (length : Z) :
  Forall (Forall (fun c => In c text)) (yielded (wc_wrap text length)).
Proof. apply wc_wrap_Forall. now apply Forall_forall. Qed.

(** X8: when every character of the text has a width between 0 and
    [length], no line that [wc_wrap] yields is wider than [length]. *)
Theorem wc_wrap_bound_strict (text : str) (length : Z) :
  1 <= length ->
  Forall (fun c => 0 <= wcwidth c <= length) text ->
  Forall (fun line => wcswidth line <= length) (yielded (wc_wrap text length)).
Proof.
  intros Hl Hc.
  assert (Hm : measurable text)
    by (eapply Forall_impl; [|exact Hc]; simpl; intros; lia).
  pose proof (wc_wrap_Forall _ text length Hc) as Hchars.
  assert (Hw : Forall (within length) (yielded (wc_wrap text length))).
  { unfold wc_wrap.
    apply wrap_loop_within; [exact Hl| |constructor|reflexivity].
    apply Forall_concat. now rewrite re_split_concat. }
  rewrite Forall_forall in *. intros line Hin.
  destruct (Hw line Hin) as [Hle|(c & -> & Hwide)]; [exact Hle|].
  specialize (Hchars [c] Hin). inversion Hchars; subst. lia.
Qed.

Lemma is_empty_concat (l : list str) :
  Forall (fun word => is_empty word = false) l ->
  is_empty l = is_empty (concat l).
Proof. intros H. destruct H as [|w l Hw _]; [reflexivity|]. now destruct w. Qed.

Lemma wrap_loop_fits (length : Z) (words : list str) :
  forall (line_words : list str) (line_len : Z),
    measurable (concat line_words ++ concat words) ->
    wcswidth (concat line_words ++ concat words) <= length ->
    line_len = wcswidth (concat line_words) ->
    Forall (fun word => is_empty word = false) line_words ->
    wrap_loop length words line_words line_len
    = if is_empty (concat line_words ++ concat words) then ([], None)
      else ([rstrip (concat line_words ++ concat words)], None).
Proof.
  induction words as [|word words IH]; intros line_words line_len Hm Hfit Hlen Hne.
  - cbn [wrap_loop concat] in *. rewrite app_nil_r in *.
    rewrite <- (is_empty_concat _ Hne).
    destruct (is_empty line_words); [reflexivity|].
    unfold flush. destruct (Z.leb_spec line_len length) as [_|Hgt]; [reflexivity|lia].
  - cbn [wrap_loop]. cbn [concat] in Hm, Hfit |- *.
    destruct word as [|c word]; [now apply IH|]. cbn [is_empty].
    set (w := c :: word) in *.
    pose proof Hm as Hm1. apply Forall_app in Hm1. destruct Hm1 as [Hmlw Hmrest].
    pose proof Hmrest as Hm2. apply Forall_app in Hm2. destruct Hm2 as [Hmw Hmws].
    assert (Hmlww : measurable (concat line_words ++ w))
      by (apply Forall_app; now split).
    pose proof (wcswidth_rstrip_le _ Hmlw) as Hstrip.
    pose proof (wcswidth_prefix_le _ _ Hm) as Hpre.
    assert (Hsum : wcswidth (concat line_words) + wcswidth w <= length).
    { rewrite <- (wcswidth_app _ _ Hmlww).
      rewrite app_assoc in Hm, Hfit.
      pose proof (wcswidth_prefix_le _ _ Hm). lia. }
    destruct (Z.gtb_spec (wcswidth (rstrip (concat line_words))) length)
      as [Hgt|_]; [lia|].
    destruct (Z.gtb_spec (line_len + wcswidth w) length) as [Hgt|_]; [lia|].
    rewrite andb_false_r. cbn [andb].
    rewrite (IH (line_words ++ [w])).
    + rewrite concat_app. cbn [concat]. rewrite app_nil_r, <- app_assoc.
      now destruct (is_empty (concat line_words ++ w ++ concat words)).
    + rewrite concat_app. cbn [concat]. now rewrite app_nil_r, <- app_assoc.
    + rewrite concat_app. cbn [concat]. now rewrite app_nil_r, <- app_assoc.
    + rewrite concat_app. cbn [concat]. rewrite app_nil_r.
      now rewrite (wcswidth_app _ _ Hmlww).
    + apply Forall_app. split; [exact Hne|]. now repeat constructor.
Qed.

(** X9: a text of defined width that fits [length] is not broken:
    [wc_wrap] yields one line, the text without its trailing whitespace,
    and yields nothing for the empty text. *)
Theorem wc_wrap_fits (text : str) (length : Z) :
  0 <= wcswidth text -> wcswidth text <= length ->
  wc_wrap text length
  = if is_empty text then ([], None) else ([rstrip text], None).
Proof.
  intros Hw Hfit. unfold wc_wrap.
  pose proof (re_split_concat text) as E.
  rewrite (wrap_loop_fits length (re_split text) [] 0); cbn [concat app];
    rewrite ?E; try reflexivity; try assumption.
  - now apply wcswidth_nonneg_measurable.
  - constructor.
Qed.

(** ** More on [trunc], [pad] and [fit_text] *)

Lemma lstrip_lstrip (s : str) : lstrip (lstrip s) = lstrip s.
Proof.
  destruct (lstrip_nil_or_head s) as [->|(c & s' & -> & Hc)]; [reflexivity|].
  now apply lstrip_head.
Qed.

Lemma rstrip_rstrip (s : str) : rstrip (rstrip s) = rstrip s.
Proof. unfold rstrip. now rewrite rev_involutive, lstrip_lstrip. Qed.

Lemma strip_strip (s : str) : strip (strip s) = strip s.
Proof.
  unfold strip at 1.
  destruct (strip_nil_or_head s) as [->|(c & s' & E & Hc)]; [reflexivity|].
  rewrite E, (lstrip_head c s' Hc), <- E. unfold strip. apply rstrip_rstrip.
Qed.

Lemma rstrip_snoc (s : str) (c : char) :
  isspace c = false -> rstrip (s ++ [c]) = s ++ [c].
Proof.
  intros Hc. unfold rstrip. rewrite rev_app_distr. cbn [rev app].
  rewrite (lstrip_head c _ Hc). cbn [rev]. now rewrite rev_involutive.
Qed.

(** The text [trunc] builds when it cuts has no whitespace at its ends. *)
Lemma strip_kept_ellipsis (s kept removed : str) :
  strip s = kept ++ removed -> strip (kept ++ [ELLIPSIS]) = kept ++ [ELLIPSIS].
Proof.
  intros E. unfold strip.
  assert (Hl : lstrip (kept ++ [ELLIPSIS]) = kept ++ [ELLIPSIS]).
  { destruct kept as [|c kept]; [reflexivity|].
    destruct (strip_nil_or_head s) as [E0|(d & s' & E1 & Hd)];
      rewrite ?E0, ?E1 in E; [discriminate|].
    injection E as <- _. now apply lstrip_head. }
  rewrite Hl. now apply rstrip_snoc.
Qed.

Lemma trunc_ok_length (text r : str) (length : Z) :
  trunc text length = Ok r -> 1 <= length.
Proof.
  unfold trunc. destruct (Z.ltb_spec length 1); [discriminate|lia].
Qed.

(** X10: for [length >= 1], an ellipsis of width 1 and a text whose
    characters all have a width of at least 1, [trunc] returns a text of
    width at most [length]: the stripped text, or a strict prefix of the
    stripped text followed by the ellipsis. *)
Theorem trunc_width (text : str) (length : Z) :
  1 <= length -> wcwidth ELLIPSIS = 1 ->
  Forall (fun c => 1 <= wcwidth c) text ->
  exists r,
    trunc text length = Ok r
    /\ 0 <= wcswidth r <= length
    /\ (r = strip text
        \/ exists kept removed,
            strip text = kept ++ removed /\ removed <> []
            /\ r = kept ++ [ELLIPSIS]).
Proof.
  intros Hl He Hpos.
  assert (Hm : measurable text)
    by (eapply Forall_impl; [|exact Hpos]; simpl; intros; lia).
  destruct (trunc_shape text length Hl)
    as [[Hfit E]|(_ & kept & removed & Es & Hne & E & Hw)].
  - exists (strip text). split; [exact E|]. split; [|now left].
    split; [|exact Hfit].
    apply wcswidth_measurable_nonneg. now apply Forall_strip.
  - destruct (Hw He Hpos) as [Hmk Hle].
    exists (kept ++ [ELLIPSIS]). split; [exact E|]. split.
    + split; [now apply wcswidth_measurable_nonneg|exact Hle].
    + right. now exists kept, removed.
Qed.

(** X11: whatever the widths, a text that [trunc] returns has no
    whitespace at either end. *)
Theorem trunc_stripped (text r : str) (length : Z) :
  trunc text length = Ok r -> strip r = r.
Proof.
  intros H. pose proof (trunc_ok_length _ _ _ H) as Hl.
  destruct (trunc_shape text length Hl)
    as [[_ E]|(_ & kept & removed & Es & _ & E & _)];
    rewrite E in H; injection H as <-.
  - apply strip_strip.
  - now apply (strip_kept_ellipsis text kept removed).
Qed.

(** X12: [trunc] is idempotent on texts whose characters all have a
    width of at least 1 (with an ellipsis of width 1): truncating its
    result to the same length returns that result. *)
Theorem trunc_idempotent (text r : str) (length : Z) :
  wcwidth ELLIPSIS = 1 ->
  Forall (fun c => 1 <= wcwidth c) text ->
  trunc text length = Ok r -> trunc r length = Ok r.
Proof.
  intros He Hpos H. pose proof (trunc_ok_length _ _ _ H) as Hl.
  assert (Hs : strip r = r).
  { destruct (trunc_shape text length Hl)
      as [[_ E]|(_ & kept & removed & Es & _ & E & _)];
      rewrite E in H; injection H as <-.
    - apply strip_strip.
    - now apply (strip_kept_ellipsis text kept removed). }
  assert (Hw : wcswidth r <= length).
  { assert (Hm : measurable text)
      by (eapply Forall_impl; [|exact Hpos]; simpl; intros; lia).
    destruct (trunc_shape text length Hl)
      as [[Hfit E]|(_ & kept & removed & _ & _ & E & Hk)];
      rewrite E in H; injection H as <-; [exact Hfit|].
    now destruct (Hk He Hpos). }
  unfold trunc. destruct (Z.ltb_spec length 1); [lia|].
  rewrite Hs. destruct (Z.leb_spec (wcswidth r) length); [reflexivity|lia].
Qed.

(** X13: padding twice is padding once to the larger length, on a text
    of defined width and with a space of width 1. *)
Theorem pad_pad (text : str) (length1 length2 : Z) :
  wcwidth SPACE = 1 -> 0 <= wcswidth text ->
  pad (pad text length1) length2 = pad text (Z.max length1 length2).
Proof.
  intros Hsp Hw.
  pose proof (pad_wcswidth text length1 Hsp Hw) as Hp.
  unfold pad at 1. rewrite Hp. unfold pad.
  destruct (Z.ltb_spec (wcswidth text) length1) as [Hlt1|Hge1];
    destruct (Z.ltb_spec (Z.max (wcswidth text) length1) length2) as [Hlt2|Hge2];
    destruct (Z.ltb_spec (wcswidth text) (Z.max length1 length2)) as [Hlt3|Hge3];
    try lia; try reflexivity.
  - rewrite <- app_assoc, <- repeat_app. do 2 f_equal. lia.
  - do 2 f_equal. lia.
  - do 2 f_equal. lia.
Qed.

(** X14: a text with a character of negative width is never truncated:
    its width reads as -1, so for [length >= 0] both [pad] and [fit_text]
    return the whole text followed by [length + 1] spaces, however long
    the text is. *)
Theorem fit_text_undefined_width (text : str) (length : Z) :
  wcswidth text < 0 -> 0 <= length ->
  pad text length = text ++ repeat SPACE (Z.to_nat (length + 1))
  /\ fit_text text length = Ok (text ++ repeat SPACE (Z.to_nat (length + 1))).
Proof.
  intros Hneg Hl. pose proof (wcswidth_lower text) as Hlow.
  assert (E : wcswidth text = -1) by lia.
  assert (Hp : pad text length = text ++ repeat SPACE (Z.to_nat (length + 1))).
  { unfold pad. rewrite E.
    destruct (Z.ltb_spec (-1) length); [|lia].
    now replace (length - -1) with (length + 1) by lia. }
  split; [exact Hp|]. rewrite fit_text_fits by lia. now rewrite Hp.
Qed.

(** ** The words of a text without newline *)

Lemma span_blank_spec (s : str) :
  Forall (fun d => is_blank d = true) (fst (span_blank s))
  /\ (snd (span_blank s) = []
      \/ exists d r, snd (span_blank s) = d :: r /\ is_blank d = false).
Proof.
  induction s as [|c s IH]; cbn [span_blank].
  - split; [constructor|now left].
  - destruct (is_blank c) eqn:E.
    + destruct (span_blank s) as [b r]. cbn [fst snd] in *.
      destruct IH as [Hb Hr]. split; [now constructor|exact Hr].
    + cbn [fst snd]. split; [constructor|]. right. now exists c, s.
Qed.

Lemma word_tail_shape (s : str) :
  ~ In NEWLINE s ->
  forall (acc : str),
  exists m rest w b,
    word_tail acc s = Some (m, rest)
    /\ m = acc ++ w ++ b
    /\ Forall (fun d => is_blank d = false) w
    /\ Forall (fun d => is_blank d = true) b
    /\ (rest = []
        \/ (b <> [] /\ exists d r, rest = d :: r /\ is_blank d = false)).
Proof.
  induction s as [|c s IH]; intros Hnl acc.
  - exists acc, [], [], []. cbn [word_tail app]. rewrite app_nil_r.
    split; [reflexivity|]. split; [reflexivity|].
    split; [constructor|]. split; [constructor|now left].
  - assert (Hc : (c =? NEWLINE) = false).
    { destruct (Z.eqb_spec c NEWLINE) as [->|]; [|reflexivity].
      exfalso. apply Hnl. now left. }
    assert (Hs : ~ In NEWLINE s) by (intros H; apply Hnl; now right).
    cbn [word_tail]. destruct (is_blank c) eqn:Eb.
    + pose proof (span_blank_spec (c :: s)) as [Hb Hr].
      cbn [span_blank] in *. rewrite Eb in *.
      destruct (span_blank s) as [b r]. cbn [fst snd] in *.
      exists (acc ++ c :: b), r, [], (c :: b). cbn [app].
      split; [reflexivity|]. split; [reflexivity|].
      split; [constructor|]. split; [exact Hb|].
      destruct Hr as [->|Hr]; [now left|right]. split; [discriminate|exact Hr].
    + assert (Hend : at_end (c :: s) = false).
      { cbn [at_end]. destruct s; [exact Hc|reflexivity]. }
      rewrite Hend, Hc.
      destruct (IH Hs (acc ++ [c])) as (m & rest & w & b & E & Em & Hw & Hb & Hr).
      exists m, rest, (c :: w), b. rewrite E, Em, <- app_assoc.
      split; [reflexivity|]. split; [reflexivity|].
      split; [now constructor|]. split; [exact Hb|exact Hr].
Qed.

Lemma blank_last (b : str) :
  b <> [] -> Forall (fun d => is_blank d = true) b ->
  forall (a : str), exists a' d, a ++ b = a' ++ [d] /\ is_blank d = true.
Proof.
  intros Hne Hb a. destruct (exists_last Hne) as (b' & d & ->).
  exists (a ++ b'), d. split; [now rewrite app_assoc|].
  apply Forall_app in Hb. destruct Hb as [_ Hd]. now inversion Hd.
Qed.

Lemma split_loop_words (fuel : nat) :
  forall (s : str),
    (List.length s < fuel)%nat -> ~ In NEWLINE s ->
    exists words,
      split_loop fuel [] s = flat_map (fun word => [[]; word]) words ++ [[]]
      /\ Forall word_shape words
      /\ separated words
      /\ (s = [] -> words = [])
      /\ (forall d r, s = d :: r -> exists t words', words = (d :: t) :: words').
Proof.
  induction fuel as [|fuel IH]; intros s Hlen Hnl; [lia|].
  destruct s as [|c s].
  - exists []. cbn. split; [reflexivity|]. split; [constructor|].
    split; [exact I|]. split; [reflexivity|discriminate].
  - assert (Hc : (c =? NEWLINE) = false).
    { destruct (Z.eqb_spec c NEWLINE) as [->|]; [|reflexivity].
      exfalso. apply Hnl. now left. }
    assert (Hs : ~ In NEWLINE s) by (intros H; apply Hnl; now right).
    destruct (word_tail_shape s Hs [c])
      as (m & rest & w & b & E & Em & Hw & Hb & Hr).
    assert (Hm : match_at (c :: s) = Some (m, rest))
      by (cbn [match_at]; now rewrite Hc).
    destruct (match_at_some _ _ _ Hm) as (Happ & _ & Hlt).
    assert (Hrest : ~ In NEWLINE rest).
    { intros H. apply Hnl. rewrite <- Happ. apply in_or_app. now right. }
    destruct (IH rest ltac:(simpl in *; lia) Hrest)
      as (words & Ew & Hshape & Hsep & Hnil & Hhead).
    exists (m :: words). cbn [split_loop]. rewrite Hm, Ew.
    split; [reflexivity|]. split; [|split; [|split]].
    + constructor; [|exact Hshape]. exists c, w, b. now rewrite Em.
    + destruct words as [|t words]; [exact I|]. cbn [separated].
      destruct Hr as [->|(Hbne & d & r & -> & Hd)]; [now specialize (Hnil eq_refl)|].
      split; [|split; [|exact Hsep]].
      * rewrite Em, app_assoc. now apply blank_last.
      * destruct (Hhead d r eq_refl) as (t' & words' & Et).
        injection Et as -> _. now exists d, t'.
    + discriminate.
    + intros d r Ed. injection Ed as <- <-. exists (w ++ b), words.
      now rewrite Em.
Qed.

Lemma filter_nonempty_words (words : list str) :
  Forall word_shape words ->
  filter (fun word => negb (is_empty word))
    (flat_map (fun word => [[]; word]) words ++ [[]])
  = words.
Proof.
  induction 1 as [|word words (c & w & b & -> & _) _ IH]; [reflexivity|].
  cbn [flat_map app filter is_empty negb]. now rewrite IH.
Qed.

Lemma separated_adjacent (pre : list str) :
  forall (a b : str) (post : list str),
    separated (pre ++ a :: b :: post) ->
    (exists a' d, a = a' ++ [d] /\ is_blank d = true)
    /\ (exists c b', b = c :: b' /\ is_blank c = false).
Proof.
  induction pre as [|p pre IH]; intros a b post H.
  - cbn [app separated] in H. destruct H as (Ha & Hb & _). now split.
  - apply (IH a b post). cbn [app] in H.
    destruct (pre ++ a :: b :: post) eqn:E; [exact I|].
    cbn [separated] in H. now destruct H as (_ & _ & H).
Qed.

(** X15: on a text without newline the split leaves nothing between the
    words: [re.split] returns an empty string, then each word followed by
    an empty string.  Every word is one character followed by characters
    that are no blanks and then by blanks, and whenever a word is followed
    by another it ends with a blank and the next starts with none. *)
Theorem tokens_shape (text : str) :
  ~ In NEWLINE text ->
  re_split text = flat_map (fun word => [[]; word]) (tokens text) ++ [[]]
  /\ Forall word_shape (tokens text)
  /\ forall (pre : list str) (a b : str) (post : list str),
      tokens text = pre ++ a :: b :: post ->
      (exists a' d, a = a' ++ [d] /\ is_blank d = true)
      /\ (exists c b', b = c :: b' /\ is_blank c = false).
Proof.
  intros Hnl.
  destruct (split_loop_words (S (List.length text)) text ltac:(lia) Hnl)
    as (words & E & Hshape & Hsep & _).
  assert (Et : tokens text = words).
  { unfold tokens, re_split. rewrite E. now apply filter_nonempty_words. }
  rewrite Et. split; [exact E|]. split; [exact Hshape|].
  intros pre a b post Ew. apply (separated_adjacent pre a b post).
  now rewrite <- Ew.
Qed.

Lemma wcswidth_unit (s : str) :
  Forall (fun c => wcwidth c = 1) s -> wcswidth s = Z.of_nat (List.length s).
Proof.
  induction 1 as [|c s Hc Hs IH]; [reflexivity|].
  rewrite wcswidth_cons.
  - rewrite IH, Hc. cbn [List.length]. lia.
  - constructor; [lia|]. eapply Forall_impl; [|exact Hs]. simpl. intros; lia.
Qed.

(** X16: a line of characters of width 1 is cut into rows of exactly
    [length] characters: for [length >= 1], every chunk of the hard wrap
    that is followed by another one has [length] characters. *)
Theorem hard_wrap_rows (line : str) (length : Z)
    (pre : list str) (a b : str) (post : list str) :
  1 <= length ->
  Forall (fun c => wcwidth c = 1) line ->
  _wc_hard_wrap line length = pre ++ a :: b :: post ->
  Z.of_nat (List.length a) = length.
Proof.
  intros Hl Hone E.
  assert (Hm : measurable line)
    by (eapply Forall_impl; [|exact Hone]; simpl; intros; lia).
  assert (Hall : Forall (Forall (fun c => wcwidth c = 1))
                   (_wc_hard_wrap line length))
    by (apply hard_wrap_loop_Forall; [exact Hone|constructor]).
  assert (Hw : Forall (within length) (_wc_hard_wrap line length))
    by (apply hard_wrap_within; [lia|exact Hm]).
  assert (Hg : greedy_chunks length (_wc_hard_wrap line length))
    by (apply hard_wrap_loop_greedy; [exact Hm|constructor|reflexivity]).
  rewrite E in Hall, Hw, Hg.
  destruct (greedy_chunks_adjacent length pre a b post Hg) as (c & b' & -> & Hgt).
  apply Forall_app in Hall. destruct Hall as [_ Hall].
  inversion Hall as [|? ? Ha Hrest]; subst.
  inversion Hrest as [|? ? Hb _]; subst. inversion Hb as [|? ? Hc _]; subst.
  apply Forall_app in Hw. destruct Hw as [_ Hw].
  inversion Hw as [|? ? Hwa _]; subst.
  rewrite <- (wcswidth_unit a Ha).
  destruct Hwa as [Hle|(d & -> & Hd)].
  - lia.
  - inversion Ha; subst. lia.
Qed.

End WcString.

(** ** The oracle matters at the characters of the text only *)

Section TwoOracles.

Variables wcwidth1 wcwidth2 : char -> Z.

Lemma wcswidth_ext (s : str) :
  agree_on wcwidth1 wcwidth2 s -> wcswidth wcwidth1 s = wcswidth wcwidth2 s.
Proof.
  unfold wcswidth. generalize 0.
  induction s as [|c s IH]; intros width H; simpl; [reflexivity|].
  inversion H as [|c' s' Hc Hs]; subst. rewrite Hc.
  destruct (wcwidth2 c <? 0); [reflexivity|]. now apply IH.
Qed.

Lemma hard_wrap_loop_ext (length : Z) (line : str) :
  agree_on wcwidth1 wcwidth2 line ->
  forall (chars : str) (chars_len : Z),
    hard_wrap_loop wcwidth1 length line chars chars_len
    = hard_wrap_loop wcwidth2 length line chars chars_len.
Proof.
  induction 1 as [|char line Hc Hline IH]; intros chars chars_len; simpl.
  - reflexivity.
  - rewrite Hc, !IH. reflexivity.
Qed.

Lemma flush_ext (line : str) (fits : bool) (length : Z) :
  agree_on wcwidth1 wcwidth2 line ->
  flush wcwidth1 line fits length = flush wcwidth2 line fits length.
Proof.
  intros H. unfold flush, _wc_hard_wrap. destruct fits; [reflexivity|].
  now apply hard_wrap_loop_ext.
Qed.

Lemma agree_concat (l : list str) :
  Forall (agree_on wcwidth1 wcwidth2) l ->
  agree_on wcwidth1 wcwidth2 (concat l).
Proof. intros H. now apply Forall_concat. Qed.

Lemma wrap_loop_ext (length : Z) (words : list str) :
  Forall (agree_on wcwidth1 wcwidth2) words ->
  forall (line_words : list str) (line_len : Z),
    Forall (agree_on wcwidth1 wcwidth2) line_words ->
    wrap_loop wcwidth1 length words line_words line_len
    = wrap_loop wcwidth2 length words line_words line_len.
Proof.
  induction 1 as [|word words Hword Hwords IH]; intros line_words line_len Hlw.
  - cbn [wrap_loop]. destruct (is_empty line_words); [reflexivity|].
    rewrite flush_ext; [reflexivity|].
    apply Forall_rstrip. now apply agree_concat.
  - cbn [wrap_loop]. destruct (is_empty word); [now apply IH|].
    pose proof (Forall_rstrip _ _ (agree_concat _ Hlw)) as Hs.
    rewrite (wcswidth_ext _ Hs), (wcswidth_ext _ Hword),
      (wcswidth_ext _ (Forall_rstrip _ _ Hword)), (flush_ext _ _ _ Hs).
    destruct (if wcswidth wcwidth2 (rstrip (concat line_words)) >? length
              then py_mod line_len length else Ok line_len) as [line_len1|e];
      [|reflexivity].
    set (break := negb (is_empty line_words)
                  && (line_len1 + wcswidth wcwidth2 word >? length)
                  && (line_len1 + wcswidth wcwidth2 (rstrip word) >? length)).
    assert (Hlw1 : Forall (agree_on wcwidth1 wcwidth2)
                     (if break then [] else line_words))
      by (destruct break; [constructor|exact Hlw]).
    rewrite (wcswidth_ext _ (agree_concat _ Hlw1)).
    rewrite IH; [reflexivity|].
    apply Forall_app. split; [exact Hlw1|now repeat constructor].
Qed.

Lemma wc_wrap_ext (text : str) (length : Z) :
  agree_on wcwidth1 wcwidth2 text ->
  wc_wrap wcwidth1 text length = wc_wrap wcwidth2 text length.
Proof.
  intros H. unfold wc_wrap. apply wrap_loop_ext; [|constructor].
  apply Forall_concat. now rewrite re_split_concat.
Qed.

End TwoOracles.

(** ** Worked examples *)

(** C8: with an oracle that gives width 1 to the characters of the text,
    ["the quick brown fox"] wrapped to 10 columns is the two lines
    ["the quick"] and ["brown fox"], in that order. *)
Theorem wrap_quick_brown_fox (wcwidth : char -> Z) :
  Forall (fun c => wcwidth c = 1) (str_of "the quick brown fox") ->
  wc_wrap wcwidth (str_of "the quick brown fox") 10
  = ([str_of "the quick"; str_of "brown fox"], None).
Proof.
  intros H.
  assert (Ht : Forall (fun c => wcwidth_table c = 1) (str_of "the quick brown fox"))
    by (repeat (constructor; [reflexivity|]); constructor).
  rewrite (wc_wrap_ext wcwidth wcwidth_table).
  - reflexivity.
  - unfold agree_on. rewrite Forall_forall in *. intros c Hin.
    now rewrite (H c Hin), (Ht c Hin).
Qed.

Lemma wrap_quick_brown_fox_witness :
  wc_wrap wcwidth_table (str_of "the quick brown fox") 10
  = ([str_of "the quick"; str_of "brown fox"], None).
Proof.
  apply (wrap_quick_brown_fox wcwidth_table).
  repeat (constructor; [reflexivity|]). constructor.
Defined.

(** The bound of C1 at work on a text with two wide characters. *)
Lemma wrap_width_bound_witness :
  raised (wc_wrap wcwidth_table (str_of "a " ++ [20013; 25991] ++ str_of " bc") 3)
  = None
  /\ Forall (within wcwidth_table 3)
       (yielded (wc_wrap wcwidth_table
                   (str_of "a " ++ [20013; 25991] ++ str_of " bc") 3)).
Proof.
  apply (wrap_width_bound wcwidth_table).
  - lia.
  - vm_compute. discriminate.
Defined.

(** C1 as stated fails on a text that ends with a tab: the width of the
    only word is undefined, the last check reads it as fitting, and the
    line ["ab"], two columns wide, is yielded for [length = 1]. *)
Lemma wrap_tab_overflow :
  1 <= 1
  /\ wc_wrap wcwidth_table (str_of "ab" ++ [TAB]) 1 = ([str_of "ab"], None)
  /\ ~ Forall (within wcwidth_table 1)
         (yielded (wc_wrap wcwidth_table (str_of "ab" ++ [TAB]) 1)).
Proof.
  split; [lia|]. split; [reflexivity|].
  intros H. inversion H as [|line rest Hw _]; subst.
  destruct Hw as [Hw|(c & Hc & _)].
  - vm_compute in Hw. now apply Hw.
  - discriminate Hc.
Qed.

(** C7 on [pad("hi", 5)]. *)
Lemma pad_width_witness :
  wcswidth wcwidth_table (pad wcwidth_table (str_of "hi") 5)
  = Z.max (wcswidth wcwidth_table (str_of "hi")) 5
  /\ (wcswidth wcwidth_table (str_of "hi") < 5 ->
      exists n, Z.of_nat n = 5 - wcswidth wcwidth_table (str_of "hi")
                /\ pad wcwidth_table (str_of "hi") 5
                   = str_of "hi" ++ repeat SPACE n)
  /\ (5 <= wcswidth wcwidth_table (str_of "hi") ->
      pad wcwidth_table (str_of "hi") 5 = str_of "hi")
  /\ exists spaces, pad wcwidth_table (str_of "hi") 5 = str_of "hi" ++ spaces.
Proof.
  apply (pad_width wcwidth_table (str_of "hi") 5).
  - reflexivity.
  - vm_compute. discriminate.
Defined.

(** C3 on its three branches: ["hi"] is padded to 5 columns, ["hello"]
    is returned as it is, ["ab  cd"] is truncated at a run of spaces. *)
Lemma fit_text_width_witness :
  (fit_text wcwidth_table (str_of "hi") 5 = Ok (str_of "hi   ")
   /\ wcswidth wcwidth_table (str_of "hi   ") = 5)
  /\ fit_text wcwidth_table (str_of "hello") 5 = Ok (str_of "hello")
  /\ (fit_text wcwidth_table (str_of "ab  cd") 5
      = trunc wcwidth_table (str_of "ab  cd") 5
      /\ exists r,
          fit_text wcwidth_table (str_of "ab  cd") 5 = Ok r
          /\ 0 <= wcswidth wcwidth_table r <= 5
          /\ (r = strip (str_of "ab  cd")
              \/ exists kept removed,
                  strip (str_of "ab  cd") = kept ++ removed /\ removed <> []
                  /\ r = kept ++ [ELLIPSIS])).
Proof.
  assert (H1 : 1 <= 5) by lia.
  split; [|split].
  - destruct (fit_text_width wcwidth_table (str_of "hi") 5 H1) as (H & _ & _);
      [vm_compute; discriminate|reflexivity|reflexivity|].
    apply H. reflexivity.
  - destruct (fit_text_width wcwidth_table (str_of "hello") 5 H1) as (_ & H & _);
      [vm_compute; discriminate|reflexivity|reflexivity|].
    apply H. reflexivity.
  - destruct (fit_text_width wcwidth_table (str_of "ab  cd") 5 H1) as (_ & _ & H);
      [vm_compute; discriminate|reflexivity|reflexivity|].
    destruct H as [E Hr]; [reflexivity|]. split; [exact E|]. apply Hr.
    repeat (constructor; [vm_compute; discriminate|]). constructor.
Defined.

(** C3 as stated fails: [fit_text("ab  cd", 5)] is ["ab…"], three columns
    wide, because [trunc] strips the spaces in front of the cut. *)
Lemma fit_text_short :
  0 <= wcswidth wcwidth_table (str_of "ab  cd")
  /\ 1 <= 5
  /\ fit_text wcwidth_table (str_of "ab  cd") 5 = Ok (str_of "ab" ++ [ELLIPSIS])
  /\ wcswidth wcwidth_table (str_of "ab" ++ [ELLIPSIS]) <> 5.
Proof.
  split; [vm_compute; discriminate|]. split; [lia|].
  split; [reflexivity|]. vm_compute. discriminate.
Qed.

(** C4 on the same text. *)
Lemma fit_text_twice_witness :
  exists r,
    fit_text wcwidth_table (str_of "ab  cd") 5 = Ok r
    /\ (wcswidth wcwidth_table (str_of "ab  cd") <= 5 ->
        fit_text wcwidth_table r 5 = Ok r)
    /\ (Forall (fun c => 1 <= wcwidth_table c) (str_of "ab  cd") ->
        fit_text wcwidth_table r 5 = Ok (pad wcwidth_table r 5)).
Proof.
  apply (fit_text_twice wcwidth_table (str_of "ab  cd") 5).
  - lia.
  - vm_compute. discriminate.
  - reflexivity.
  - reflexivity.
Defined.

(** C4 as stated fails: the second [fit_text] pads the truncated text. *)
Lemma fit_text_not_idempotent :
  0 <= wcswidth wcwidth_table (str_of "ab  cd")
  /\ 1 <= 5
  /\ fit_text wcwidth_table (str_of "ab  cd") 5 = Ok (str_of "ab" ++ [ELLIPSIS])
  /\ fit_text wcwidth_table (str_of "ab" ++ [ELLIPSIS]) 5
     = Ok (str_of "ab" ++ [ELLIPSIS] ++ str_of "  ")
  /\ fit_text wcwidth_table (str_of "ab" ++ [ELLIPSIS]) 5
     <> fit_text wcwidth_table (str_of "ab  cd") 5.
Proof.
  split; [vm_compute; discriminate|]. split; [lia|].
  split; [reflexivity|]. split; [reflexivity|].
  vm_compute. discriminate.
Qed.

(** C5 fails on the code: with a zero-width mark in front of the cut, the
    character given up for the ellipsis frees no column, and the result
    of [trunc] at [length = 2] is three columns wide. *)
Lemma trunc_zero_width_overflow :
  wcswidth wcwidth_table (str_of "ab" ++ [769] ++ str_of "c") = 3
  /\ trunc wcwidth_table (str_of "ab" ++ [769] ++ str_of "c") 2
     = Ok (str_of "ab" ++ [ELLIPSIS])
  /\ wcswidth wcwidth_table (str_of "ab" ++ [ELLIPSIS]) = 3.
Proof. repeat split. Qed.

(** C6 on a text and a length. *)
Lemma trunc_fit_raise_witness :
  (trunc wcwidth_table (str_of "x") 0 = Raise ValueError <-> 0 < 1)
  /\ (fit_text wcwidth_table (str_of "x") 0 = Raise ValueError
      <-> 0 < 1 /\ 0 < wcswidth wcwidth_table (str_of "x"))
  /\ (1 <= 0 ->
      (exists r, trunc wcwidth_table (str_of "x") 0 = Ok r)
      /\ (exists r, fit_text wcwidth_table (str_of "x") 0 = Ok r)).
Proof. exact (trunc_fit_raise wcwidth_table (str_of "x") 0). Defined.

(** C6 as stated fails: [fit_text("", 0)] returns the empty text. *)
Lemma fit_text_zero_returns :
  0 < 1
  /\ fit_text wcwidth_table [] 0 = Ok []
  /\ fit_text wcwidth_table [] 0 <> Raise ValueError.
Proof. split; [lia|]. split; [reflexivity|]. vm_compute. discriminate. Qed.

(** C10 on one wide character at [length = 1]. *)
Lemma hard_wrap_wide_first_witness :
  (exists chunk rest,
      _wc_hard_wrap wcwidth_table [20013] 1 = [] :: (20013 :: chunk) :: rest)
  /\ (isspace 20013 = false ->
      wc_wrap wcwidth_table [20013] 1 = ([[]; [20013]], None)).
Proof.
  apply (hard_wrap_wide_first wcwidth_table 20013 [] 1).
  - lia.
  - vm_compute. reflexivity.
Defined.

(** ** The further properties at work *)

(** X1 on a line that starts with a wide character, at [length = 1]. *)
Lemma hard_wrap_chunks_witness :
  Forall (within wcwidth_table 1)
    (_wc_hard_wrap wcwidth_table (20013 :: str_of "ab") 1)
  /\ Forall (fun chunk => chunk <> [])
       (tl (_wc_hard_wrap wcwidth_table (20013 :: str_of "ab") 1))
  /\ (hd_error (_wc_hard_wrap wcwidth_table (20013 :: str_of "ab") 1) = Some []
      <-> exists c line', 20013 :: str_of "ab" = c :: line'
                          /\ 1 < wcwidth_table c).
Proof.
  apply (hard_wrap_chunks wcwidth_table (20013 :: str_of "ab") 1).
  - lia.
  - vm_compute. discriminate.
Defined.

(** X2 on ["abc"] at [length = 5]. *)
Lemma hard_wrap_fits_witness :
  _wc_hard_wrap wcwidth_table (str_of "abc") 5
  = if is_empty (str_of "abc") then [] else [str_of "abc"].
Proof.
  apply (hard_wrap_fits wcwidth_table (str_of "abc") 5).
  - vm_compute. discriminate.
  - vm_compute. discriminate.
Defined.

(** X3 on ["abcde"] at [length = 2], between the first two chunks. *)
Lemma hard_wrap_greedy_witness :
  exists c b',
    str_of "cd" = c :: b'
    /\ 2 < wcswidth wcwidth_table (str_of "ab") + wcwidth_table c.
Proof.
  apply (hard_wrap_greedy wcwidth_table (str_of "abcde") 2
           [] (str_of "ab") (str_of "cd") [str_of "e"]).
  - vm_compute. discriminate.
  - reflexivity.
Defined.

(** X5 on ["a b"]. *)
Lemma wc_wrap_zero_length_witness :
  wc_wrap wcwidth_table (str_of "a b") 0 = ([], Some ZeroDivisionError).
Proof.
  apply (wc_wrap_zero_length wcwidth_table (str_of "a b")
           (str_of "a ") (str_of "b") []).
  - reflexivity.
  - reflexivity.
Defined.

(** X6 on a text with runs of spaces, wrapped to 4 columns. *)
Lemma wc_wrap_gaps_witness :
  (exists lead gaps,
      List.length gaps
      = List.length (yielded (wc_wrap wcwidth_table (str_of "ab   cd  efghij") 4))
      /\ Forall (fun c => isspace c = true) lead
      /\ Forall (Forall (fun c => isspace c = true)) gaps
      /\ str_of "ab   cd  efghij"
         = lead ++ interleave
                     (yielded (wc_wrap wcwidth_table (str_of "ab   cd  efghij") 4))
                     gaps)
  /\ visible (concat (yielded (wc_wrap wcwidth_table (str_of "ab   cd  efghij") 4)))
     = visible (str_of "ab   cd  efghij").
Proof.
  apply (wc_wrap_gaps wcwidth_table (str_of "ab   cd  efghij") 4). lia.
Defined.

(** X8 on ["ab cd"] at [length = 3]. *)
Lemma wc_wrap_bound_strict_witness :
  Forall (fun line => wcswidth wcwidth_table line <= 3)
    (yielded (wc_wrap wcwidth_table (str_of "ab cd") 3)).
Proof.
  apply (wc_wrap_bound_strict wcwidth_table (str_of "ab cd") 3).
  - lia.
  - repeat (constructor; [vm_compute; split; discriminate|]). constructor.
Defined.

(** X9 on a text with trailing spaces. *)
Lemma wc_wrap_fits_witness :
  wc_wrap wcwidth_table (str_of "hi  ") 10
  = if is_empty (str_of "hi  ") then ([], None)
    else ([rstrip (str_of "hi  ")], None).
Proof.
  apply (wc_wrap_fits wcwidth_table (str_of "hi  ") 10).
  - vm_compute. discriminate.
  - vm_compute. discriminate.
Defined.

(** X10 on [trunc("hello world", 8)]. *)
Lemma trunc_width_witness :
  exists r,
    trunc wcwidth_table (str_of "hello world") 8 = Ok r
    /\ 0 <= wcswidth wcwidth_table r <= 8
    /\ (r = strip (str_of "hello world")
        \/ exists kept removed,
            strip (str_of "hello world") = kept ++ removed /\ removed <> []
            /\ r = kept ++ [ELLIPSIS]).
Proof.
  apply (trunc_width wcwidth_table (str_of "hello world") 8).
  - lia.
  - reflexivity.
  - repeat (constructor; [vm_compute; discriminate|]). constructor.
Defined.

(** X11 on [trunc("  ab  cd ", 5)]. *)
Lemma trunc_stripped_witness :
  strip (str_of "ab" ++ [ELLIPSIS]) = str_of "ab" ++ [ELLIPSIS].
Proof.
  apply (trunc_stripped wcwidth_table (str_of "  ab  cd ")
           (str_of "ab" ++ [ELLIPSIS]) 5).
  reflexivity.
Defined.

(** X12 on [trunc("hello world", 8)]. *)
Lemma trunc_idempotent_witness :
  trunc wcwidth_table (str_of "hello w" ++ [ELLIPSIS]) 8
  = Ok (str_of "hello w" ++ [ELLIPSIS]).
Proof.
  apply (trunc_idempotent wcwidth_table (str_of "hello world")
           (str_of "hello w" ++ [ELLIPSIS]) 8).
  - reflexivity.
  - repeat (constructor; [vm_compute; discriminate|]). constructor.
  - reflexivity.
Defined.

(** X13 on [pad(pad("hi", 4), 7)]. *)
Lemma pad_pad_witness :
  pad wcwidth_table (pad wcwidth_table (str_of "hi") 4) 7
  = pad wcwidth_table (str_of "hi") (Z.max 4 7).
Proof.
  apply (pad_pad wcwidth_table (str_of "hi") 4 7).
  - reflexivity.
  - vm_compute. discriminate.
Defined.

(** X14 on a text with a tab, longer than the length asked for. *)
Lemma fit_text_undefined_width_witness :
  pad wcwidth_table (str_of "abc" ++ [TAB] ++ str_of "def") 2
  = (str_of "abc" ++ [TAB] ++ str_of "def") ++ repeat SPACE (Z.to_nat (2 + 1))
  /\ fit_text wcwidth_table (str_of "abc" ++ [TAB] ++ str_of "def") 2
     = Ok ((str_of "abc" ++ [TAB] ++ str_of "def")
           ++ repeat SPACE (Z.to_nat (2 + 1))).
Proof.
  apply (fit_text_undefined_width wcwidth_table
           (str_of "abc" ++ [TAB] ++ str_of "def") 2).
  - reflexivity.
  - lia.
Defined.

(** X15 on ["the quick brown fox"]. *)
Lemma tokens_shape_witness :
  re_split (str_of "the quick brown fox")
  = flat_map (fun word => [[]; word]) (tokens (str_of "the quick brown fox"))
    ++ [[]]
  /\ Forall word_shape (tokens (str_of "the quick brown fox"))
  /\ forall (pre : list str) (a b : str) (post : list str),
      tokens (str_of "the quick brown fox") = pre ++ a :: b :: post ->
      (exists a' d, a = a' ++ [d] /\ is_blank d = true)
      /\ (exists c b', b = c :: b' /\ is_blank c = false).
Proof.
  apply (tokens_shape (str_of "the quick brown fox")).
  vm_compute. lia.
Defined.

(** X16 on ["abcde"] at [length = 2]. *)
Lemma hard_wrap_rows_witness : Z.of_nat (List.length (str_of "ab")) = 2.
Proof.
  apply (hard_wrap_rows wcwidth_table (str_of "abcde") 2
           [] (str_of "ab") (str_of "cd") [str_of "e"]).
  - lia.
  - repeat (constructor; [reflexivity|]). constructor.
  - reflexivity.
Defined.
